(** * Todo service: resilience wrapper, service operations and resolvers

    A shallow embedding of
    - [src/src/infrastructure/resilience.ts] ([withRetry], [dbBreakerOptions]),
    - [src/unnamed/part_002] ([TodoService], [mapRow], the [db] pool and the
      schema [initDatabase] creates),
    - [src/src/resolvers/todoResolver.ts] ([createTodo], [updateTodo]),
    - [src/src/utils/validation.ts] (the two zod schemas and [validateInput]).

    Effects are threaded through a small state / trace / error monad [M]:
    the state holds the table, the breaker, the clock and the oracles for
    [Math.random], [uuidv4] and injected database failures; the trace records
    every observable effect (attempts, sleeps, breaker fires, database calls,
    published events, log lines). JavaScript numbers are IEEE 754 doubles,
    kept as the rationals they denote and rounded after every operation.
    The database runs the statements as PostgreSQL does on the schema of
    [initDatabase]. *)

From Stdlib Require Import List String Ascii Bool Arith Lia ZArith QArith Qpower Qround Qabs Lqa.
From Corelib Require Import PrimFloat FloatOps SpecFloat.
Import ListNotations.

Open Scope string_scope.
Open Scope list_scope.
Open Scope nat_scope.

(** ** Errors as the code inspects them: [error.code] and [error.message] *)

Record err := mkErr { err_code : option string; err_message : string }.

(** The allow-list of [withRetry] (resilience.ts, lines 32-34). *)
Definition isRetryable (error : err) : bool :=
  match err_code error with
  | Some c => String.eqb c "ECONNRESET" || String.eqb c "ETIMEDOUT"
              || String.eqb c "ECONNREFUSED"
  | None => false
  end.

(** [throw new Error('Max retries reached')], line 54. *)
Definition max_retries_error : err := mkErr None "Max retries reached".

Inductive result (E A : Type) : Type :=
| Ok (v : A)
| Err (e : E).
Arguments Ok {E A} v.
Arguments Err {E A} e.

(** [e >>= k] on results, written [let? x := e in k]. *)
Definition rbind {E A B} (m : result E A) (k : A -> result E B) : result E B :=
  match m with Ok a => k a | Err e => Err e end.

Notation "'let?' x ':=' m 'in' k" := (rbind m (fun x => k))
  (at level 200, x name, m at level 100, k at level 200).

(** ** Data model of the service (part_002) *)

Definition Timestamp := Z.  (** [new Date().toISOString()], by its millisecond count *)

(** A row of [todos], with the columns of [initDatabase] (part_002, lines
    222-234). *)
Record Row := mkRow {
  r_id : string;
  r_title : string;
  r_description : option string;
  r_status : string;
  r_due_date : option string;
  r_created_at : Timestamp;
  r_updated_at : Timestamp;
  r_completed_at : option Timestamp;
  r_priority_level : option string;
  r_priority_set_at : option Timestamp
}.

(** A JavaScript value read from a row object: what a column holds
    ([VText], [VTime], or [VNull] for SQL [NULL]). A property that the
    object does not have reads [undefined], [None] where an [option sqlval]
    is expected. *)
Inductive sqlval := VText (s : string) | VTime (t : Timestamp) | VNull.

(** [interface Todo] of part_002, with the deprecated [notes] field. The
    fields [mapRow] copies from properties that a row object may lack are
    kept as read: [None] is [undefined]. *)
Record Todo := mkTodo {
  t_id : string;
  t_title : string;
  t_description : option string;
  t_status : string;
  t_dueDate : option sqlval;
  t_createdAt : option sqlval;
  t_updatedAt : option sqlval;
  t_completedAt : option sqlval;
  t_notes : option string
}.

(** The statements the service sends through [dbBreaker.fire], with their
    parameters. *)
Inductive Query : Type :=
| QSelectAll (status : option string)
| QSelectById (id : string)
| QInsert (id title : string) (description : option string) (status : string)
          (dueDate : option string) (createdAt updatedAt : Timestamp)
| QUpdate (id : string) (title description status dueDate : option string)
          (updatedAt : Timestamp)
| QDelete (id : string)
| QComplete (id : string) (now : Timestamp)
| QInsertTag (id todoId tagName tagColor : string) (createdAt : Timestamp).

Inductive event_kind := Created | Updated | Completed | Deleted.

Inductive level := LInfo | LWarn | LError.

Inductive event : Type :=
| EvAttempt (attempt : nat)                  (** [fn()] invoked by [withRetry] *)
| EvRetryWarn (attempt : nat) (delay : Q) (error : string)
                                             (** [logger.warn('Retry attempt', ...)] *)
| EvSleep (delay : Q)                        (** [setTimeout(resolve, delay + jitter)] *)
| EvFire (q : Query)                         (** [dbBreaker.fire(query, params)] *)
| EvDb (q : Query)                           (** [db.query(query, params)] reached *)
| EvNow (t : Timestamp)                      (** [new Date()] read *)
| EvPublish (kind : event_kind) (todoId title : string)
                                             (** [eventBus.publish] of a CloudEvent *)
| EvLog (lvl : level) (correlationId : string) (msg : string) (error : option string).
                                             (** a resolver's [log.*] line *)

(** ** The monad: state passing, a trace of effects, and a rejection channel *)

Definition M (St E A : Type) : Type := St -> result E A * list event * St.

Definition ret {St E A} (a : A) : M St E A := fun s => (Ok a, [], s).

Definition bind {St E A B} (m : M St E A) (k : A -> M St E B) : M St E B :=
  fun s =>
    match m s with
    | (Ok a, tr, s1) => let '(r, tr2, s2) := k a s1 in (r, tr ++ tr2, s2)
    | (Err e, tr, s1) => (Err e, tr, s1)
    end.

Notation "x <- m ;; k" := (bind m (fun x => k))
  (at level 61, m at next level, right associativity).
Notation "m ;; k" := (bind m (fun _ => k))
  (at level 61, right associativity).

Definition throw {St E A} (e : E) : M St E A := fun s => (Err e, [], s).

Definition tell {St E} (tr : list event) : M St E unit := fun s => (Ok tt, tr, s).

(** [try { m } catch (e) { h(e) }] *)
Definition try_catch {St E E' A} (m : M St E A) (h : E -> M St E' A) : M St E' A :=
  fun s =>
    match m s with
    | (Ok a, tr, s1) => (Ok a, tr, s1)
    | (Err e, tr, s1) => let '(r, tr2, s2) := h e s1 in (r, tr ++ tr2, s2)
    end.

(** ** [withRetry] (resilience.ts, lines 22-55) *)

(** [Math.pow(2, n)] for an integer [n >= 0]. *)
Definition pow2 (n : nat) : Q := inject_Z (2 ^ Z.of_nat n).

(** *** JavaScript numbers: IEEE 754 binary64, round to nearest, ties to even

    A double is kept as the rational it denotes; [round64 x] is the double
    nearest to [x]. [qlog2 x] is [floor(log2 x)] for [x > 0]; [fexp x] is the
    exponent of the last bit of the 53-bit significand (fixed at [-1074] for
    subnormals); the value scaled by [2^-fexp x] is rounded to an integer,
    ties to even. The model has no [Infinity]: it is exact below [2^1024],
    which the computations considered here stay under. *)
Definition qlog2 (x : Q) : Z :=
  let e := (Z.log2 (Qnum x) - Z.log2 (Zpos (Qden x)))%Z in
  if Qle_bool (2 ^ e)%Q x then e else (e - 1)%Z.

Definition round_even (x : Q) : Z :=
  let f := Qfloor x in
  match Qcompare (x - inject_Z f)%Q (1 # 2)%Q with
  | Lt => f
  | Gt => (f + 1)%Z
  | Eq => if Z.even f then f else (f + 1)%Z
  end.

Definition fexp (x : Q) : Z := Z.max (-1074) (qlog2 (Qabs x) - 52).

Definition round64 (x : Q) : Q :=
  if Qeq_bool x 0 then 0%Q
  else (inject_Z (round_even (x * 2 ^ (- fexp x))) * 2 ^ (fexp x))%Q.

(** [a * b] and [a + b] on doubles. *)
Definition fmul (a b : Q) : Q := round64 (a * b).
Definition fadd (a b : Q) : Q := round64 (a + b).

(** The rational a primitive binary64 float of Rocq denotes, to check
    [round64] against the floating-point arithmetic of the machine. *)
Definition float_Q (f : float) : option Q :=
  match Prim2SF f with
  | S754_zero _ => Some 0%Q
  | S754_finite s m e => Some ((if s then -1 else 1) * inject_Z (Zpos m) * 2 ^ e)%Q
  | _ => None
  end.

Section WithRetry.
Context {St A : Type}.
(** [Math.random()] and the [setTimeout] suspension, from the environment. *)
Variable random : M St err Q.
Variable sleep : Q -> M St err unit.
Variable fn : M St err A.
(** [maxRetries] is a whole number (every call in the repository uses the
    default [3]); [baseDelay] is a double. *)
Variables (maxRetries : nat) (baseDelay : Q).

(** One iteration of [for (let attempt = ...; attempt < maxRetries; attempt++)];
    [fuel] is [maxRetries - attempt]. *)
Fixpoint retry_from (fuel attempt : nat) : M St err A :=
  match fuel with
  | O => throw max_retries_error
  | S fuel' =>
      try_catch (tell [EvAttempt attempt] ;; fn) (fun error =>
        let isLastAttempt := Nat.eqb attempt (maxRetries - 1) in
        if isLastAttempt || negb (isRetryable error) then throw error
        else
          let delay := fmul baseDelay (pow2 attempt) in
          r <- random ;;
          let jitter := fmul r 1000%Q in
          tell [EvRetryWarn (S attempt) (fadd delay jitter) (err_message error)] ;;
          tell [EvSleep (fadd delay jitter)] ;;
          sleep (fadd delay jitter) ;;
          retry_from fuel' (S attempt))
  end.

Definition withRetry : M St err A := retry_from maxRetries 0.
End WithRetry.

(** ** A probe environment for [withRetry] alone

    The wrapped operation answers its [n]-th invocation with [script n];
    the [n]-th [Math.random()] draw is [rnd n]; sleeping advances a clock. *)

Record Probe := mkProbe { p_calls : nat; p_draws : nat; p_clock : Q }.

Definition probe_op {A} (script : nat -> result err A) : M Probe err A :=
  fun p => (script (p_calls p), [], mkProbe (S (p_calls p)) (p_draws p) (p_clock p)).

Definition probe_random (rnd : nat -> Q) : M Probe err Q :=
  fun p => (Ok (rnd (p_draws p)), [], mkProbe (p_calls p) (S (p_draws p)) (p_clock p)).

Definition probe_sleep (d : Q) : M Probe err unit :=
  fun p => (Ok tt, [], mkProbe (p_calls p) (p_draws p) (p_clock p + d)%Q).

Definition probe_retry {A} (rnd : nat -> Q) (script : nat -> result err A)
    (maxRetries : nat) (baseDelay : Q) : M Probe err A :=
  withRetry (probe_random rnd) probe_sleep (probe_op script) maxRetries baseDelay.

(** Projections of a trace. *)
Definition attempts (tr : list event) : nat :=
  List.length (filter (fun e => match e with EvAttempt _ => true | _ => false end) tr).

Fixpoint sleeps (tr : list event) : list Q :=
  match tr with
  | [] => []
  | EvSleep d :: tr' => d :: sleeps tr'
  | _ :: tr' => sleeps tr'
  end.

Definition timeline (tr : list event) : list event :=
  filter (fun e => match e with EvAttempt _ | EvSleep _ => true | _ => false end) tr.

Definition p0 : Probe := mkProbe 0 0 0.

Definition timeout_err : err := mkErr (Some "ETIMEDOUT") "connect ETIMEDOUT".




(** ** The database: the schema of [initDatabase] and how PostgreSQL runs a statement

    [initDatabase] (part_002, lines 218-251) creates one relation, [todos]
    (columns [id], [title], [description], [status], [due_date],
    [created_at], [updated_at], [completed_at], [priority_level],
    [priority_set_at], primary key [id], check [valid_status]). PostgreSQL
    folds an unquoted identifier to lower case and resolves every name of a
    statement (relation, then column references in clause order, then the
    target columns of an [INSERT] or [UPDATE]) before it touches a row; a
    name it cannot resolve fails the statement, [42P01] for a relation and
    [42703] for a column. [analyze] is that resolution, from the statement
    texts of part_002 to a statement over the columns; [run_stmt] executes
    it. *)

Inductive col :=
| CId | CTitle | CDescription | CStatus | CDueDate | CCreatedAt | CUpdatedAt
| CCompletedAt | CPriorityLevel | CPrioritySetAt.

Definition col_name (c : col) : string :=
  match c with
  | CId => "id" | CTitle => "title" | CDescription => "description"
  | CStatus => "status" | CDueDate => "due_date" | CCreatedAt => "created_at"
  | CUpdatedAt => "updated_at" | CCompletedAt => "completed_at"
  | CPriorityLevel => "priority_level" | CPrioritySetAt => "priority_set_at"
  end.

Definition todos_columns : list col :=
  [CId; CTitle; CDescription; CStatus; CDueDate; CCreatedAt; CUpdatedAt;
   CCompletedAt; CPriorityLevel; CPrioritySetAt].

Definition col_of_name (name : string) : option col :=
  find (fun c => String.eqb (col_name c) name) todos_columns.

Definition col_eqb (a b : col) : bool := String.eqb (col_name a) (col_name b).

Definition text_val (o : option string) : sqlval :=
  match o with Some s => VText s | None => VNull end.

Definition time_val (o : option Timestamp) : sqlval :=
  match o with Some t => VTime t | None => VNull end.

(** The value of column [c] in row [r]. *)
Definition get_col (c : col) (r : Row) : sqlval :=
  match c with
  | CId => VText (r_id r)
  | CTitle => VText (r_title r)
  | CDescription => text_val (r_description r)
  | CStatus => VText (r_status r)
  | CDueDate => text_val (r_due_date r)
  | CCreatedAt => VTime (r_created_at r)
  | CUpdatedAt => VTime (r_updated_at r)
  | CCompletedAt => time_val (r_completed_at r)
  | CPriorityLevel => text_val (r_priority_level r)
  | CPrioritySetAt => time_val (r_priority_set_at r)
  end.

(** Case folding of an unquoted identifier: [A-Z] to [a-z]. *)
Definition is_upper (c : ascii) : bool :=
  Nat.leb 65 (nat_of_ascii c) && Nat.leb (nat_of_ascii c) 90.

Definition to_lower (c : ascii) : ascii :=
  if is_upper c then ascii_of_nat (nat_of_ascii c + 32) else c.

Fixpoint fold_ident (s : string) : string :=
  match s with
  | EmptyString => EmptyString
  | String c rest => String (to_lower c) (fold_ident rest)
  end.

(** The relations of the database: the one [initDatabase] creates. *)
Definition relations : list string := ["todos"].

Definition dquote : string := String (ascii_of_nat 34) EmptyString.
Definition quoted (s : string) : string := (dquote ++ s ++ dquote)%string.

(** The errors of PostgreSQL the statements can raise, with [error.code]
    and [error.message] as [pg] reports them. *)
Definition undefined_table (name : string) : err :=
  mkErr (Some "42P01") ("relation " ++ quoted name ++ " does not exist")%string.
Definition undefined_column (name : string) : err :=
  mkErr (Some "42703") ("column " ++ quoted name ++ " does not exist")%string.
Definition undefined_target (name : string) : err :=
  mkErr (Some "42703")
    ("column " ++ quoted name ++ " of relation " ++ quoted "todos" ++ " does not exist")%string.
Definition not_null_violation (c : col) : err :=
  mkErr (Some "23502")
    ("null value in column " ++ quoted (col_name c) ++ " of relation " ++ quoted "todos"
     ++ " violates not-null constraint")%string.
Definition datatype_mismatch (c : col) : err :=
  mkErr (Some "42804") ("column " ++ quoted (col_name c) ++ " is of another type")%string.
Definition check_violation : err :=
  mkErr (Some "23514")
    ("new row for relation " ++ quoted "todos" ++ " violates check constraint "
     ++ quoted "valid_status")%string.
Definition unique_violation : err :=
  mkErr (Some "23505")
    ("duplicate key value violates unique constraint " ++ quoted "todos_pkey")%string.

(** [CONSTRAINT valid_status CHECK (status IN (...))] *)
Definition valid_status_values : list string :=
  ["PENDING"; "IN_PROGRESS"; "COMPLETED"; "ARCHIVED"].

(** An expression of a statement text: a parameter or constant, or
    [COALESCE($n, name)] on a column named in the text. *)
Inductive expr := EVal (v : sqlval) | ECoalesce (v : sqlval) (name : string).

(** The same, with the column resolved. *)
Inductive sexpr := SVal (v : sqlval) | SCoalesce (v : sqlval) (c : col).

(** A resolved statement on [todos]. [SSelect w o] is [SELECT * ... [WHERE
    c = v] [ORDER BY c' DESC]]; the [WHERE] of the other statements is
    [c = v]; [SInsert] and [SUpdate] list the assigned columns. *)
Inductive stmt :=
| SSelect (where_eq : option (col * sqlval)) (order_desc : option col)
| SInsert (values : list (col * sqlval))
| SUpdate (sets : list (col * sexpr)) (where_eq : col * sqlval)
| SDelete (where_eq : col * sqlval).

Definition resolve_relation (name : string) : result err unit :=
  if existsb (String.eqb (fold_ident name)) relations then Ok tt
  else Err (undefined_table (fold_ident name)).

(** A column reference of an expression or a [WHERE] / [ORDER BY] clause. *)
Definition resolve_ref (name : string) : result err col :=
  match col_of_name (fold_ident name) with
  | Some c => Ok c
  | None => Err (undefined_column (fold_ident name))
  end.

(** A target column of an [INSERT] column list or an [UPDATE ... SET]. *)
Definition resolve_target (name : string) : result err col :=
  match col_of_name (fold_ident name) with
  | Some c => Ok c
  | None => Err (undefined_target (fold_ident name))
  end.

Fixpoint resolve_targets (names : list string) : result err (list col) :=
  match names with
  | [] => Ok []
  | n :: ns => let? c := resolve_target n in let? cs := resolve_targets ns in Ok (c :: cs)
  end.

Definition resolve_expr (e : expr) : result err sexpr :=
  match e with
  | EVal v => Ok (SVal v)
  | ECoalesce v name => let? c := resolve_ref name in Ok (SCoalesce v c)
  end.

Fixpoint resolve_exprs (es : list expr) : result err (list sexpr) :=
  match es with
  | [] => Ok []
  | e :: es' => let? s := resolve_expr e in let? ss := resolve_exprs es' in Ok (s :: ss)
  end.

(** Name resolution of the statement texts of part_002, in PostgreSQL's
    order: [SELECT]: [WHERE], then [ORDER BY]; [INSERT]: the column list;
    [UPDATE]: [WHERE], the [SET] expressions, then the [SET] targets. *)
Definition analyze (q : Query) : result err stmt :=
  match q with
  | QSelectAll status =>
      (* SELECT * FROM todos [WHERE status = $1] ORDER BY createdAt DESC *)
      let? _ := resolve_relation "todos" in
      let? w := match status with
                | Some st => let? c := resolve_ref "status" in Ok (Some (c, VText st))
                | None => Ok None
                end in
      let? o := resolve_ref "createdAt" in
      Ok (SSelect w (Some o))
  | QSelectById id =>
      (* SELECT * FROM todos WHERE id = $1 *)
      let? _ := resolve_relation "todos" in
      let? c := resolve_ref "id" in
      Ok (SSelect (Some (c, VText id)) None)
  | QInsert id title description status dueDate createdAt updatedAt =>
      (* INSERT INTO todos (id, title, description, status, dueDate, createdAt,
         updatedAt) VALUES ($1, ..., $7) RETURNING * *)
      let? _ := resolve_relation "todos" in
      let? cs := resolve_targets
                   ["id"; "title"; "description"; "status"; "dueDate"; "createdAt"; "updatedAt"] in
      Ok (SInsert (combine cs [VText id; VText title; text_val description; VText status;
                               text_val dueDate; VTime createdAt; VTime updatedAt]))
  | QUpdate id title description status dueDate now =>
      (* UPDATE todos SET title = COALESCE($2, title), description = COALESCE($3,
         description), status = COALESCE($4, status), dueDate = COALESCE($5,
         dueDate), updatedAt = $6 WHERE id = $1 RETURNING * *)
      let? _ := resolve_relation "todos" in
      let? k := resolve_ref "id" in
      let? es := resolve_exprs
                   [ECoalesce (text_val title) "title";
                    ECoalesce (text_val description) "description";
                    ECoalesce (text_val status) "status";
                    ECoalesce (text_val dueDate) "dueDate"; EVal (VTime now)] in
      let? cs := resolve_targets ["title"; "description"; "status"; "dueDate"; "updatedAt"] in
      Ok (SUpdate (combine cs es) (k, VText id))
  | QDelete id =>
      (* DELETE FROM todos WHERE id = $1 *)
      let? _ := resolve_relation "todos" in
      let? k := resolve_ref "id" in
      Ok (SDelete (k, VText id))
  | QComplete id now =>
      (* UPDATE todos SET status = 'COMPLETED', completedAt = $2, updatedAt = $2
         WHERE id = $1 RETURNING * *)
      let? _ := resolve_relation "todos" in
      let? k := resolve_ref "id" in
      let? es := resolve_exprs [EVal (VText "COMPLETED"); EVal (VTime now); EVal (VTime now)] in
      let? cs := resolve_targets ["status"; "completedAt"; "updatedAt"] in
      Ok (SUpdate (combine cs es) (k, VText id))
  | QInsertTag _ _ _ _ _ =>
      (* INSERT INTO todoTags (id, todoId, tagName, tagColor, createdAt) VALUES
         ($1, ..., $5) RETURNING *: todotags is not among [relations], so
         resolution stops at the relation *)
      Err (undefined_table (fold_ident "todoTags"))
  end.

(** [c = v] in a [WHERE]: [NULL] equals nothing. *)
Definition sqlval_eqb (a b : sqlval) : bool :=
  match a, b with
  | VText x, VText y => String.eqb x y
  | VTime x, VTime y => Z.eqb x y
  | _, _ => false
  end.

Definition where_holds (k : col * sqlval) (r : Row) : bool :=
  sqlval_eqb (get_col (fst k) r) (snd k).

(** The order of a column's values; [NULL] sorts above every value. *)
Definition sqlval_leb (a b : sqlval) : bool :=
  match a, b with
  | _, VNull => true
  | VNull, _ => false
  | VTime x, VTime y => Z.leb x y
  | VText x, VText y => String.leb x y
  | _, _ => true
  end.

(** [ORDER BY c DESC] (nulls first), an insertion sort that keeps rows with
    equal keys in table order. *)
Fixpoint insert_desc (c : col) (r : Row) (rows : list Row) : list Row :=
  match rows with
  | [] => [r]
  | r' :: rows' =>
      if sqlval_leb (get_col c r') (get_col c r) then r :: rows
      else r' :: insert_desc c r rows'
  end.

Definition order_rows (o : option col) (rows : list Row) : list Row :=
  match o with
  | Some c => fold_right (insert_desc c) [] rows
  | None => rows
  end.

Fixpoint lookup_col {V} (c : col) (l : list (col * V)) : option V :=
  match l with
  | [] => None
  | (c', v) :: l' => if col_eqb c' c then Some v else lookup_col c l'
  end.

(** The defaults of [todos]: [status DEFAULT 'PENDING'], [NULL] elsewhere. *)
Definition column_default (c : col) : sqlval :=
  match c with CStatus => VText "PENDING" | _ => VNull end.

Definition text_req (c : col) (v : sqlval) : result err string :=
  match v with VText s => Ok s | VNull => Err (not_null_violation c) | VTime _ => Err (datatype_mismatch c) end.
Definition text_opt (c : col) (v : sqlval) : result err (option string) :=
  match v with VText s => Ok (Some s) | VNull => Ok None | VTime _ => Err (datatype_mismatch c) end.
Definition time_req (c : col) (v : sqlval) : result err Timestamp :=
  match v with VTime t => Ok t | VNull => Err (not_null_violation c) | VText _ => Err (datatype_mismatch c) end.
Definition time_opt (c : col) (v : sqlval) : result err (option Timestamp) :=
  match v with VTime t => Ok (Some t) | VNull => Ok None | VText _ => Err (datatype_mismatch c) end.

(** The row whose column [c] holds [t c], under the [NOT NULL] and
    [valid_status] constraints of [todos]. *)
Definition make_row (t : col -> sqlval) : result err Row :=
  let? id := text_req CId (t CId) in
  let? title := text_req CTitle (t CTitle) in
  let? description := text_opt CDescription (t CDescription) in
  let? status := text_req CStatus (t CStatus) in
  let? due_date := text_opt CDueDate (t CDueDate) in
  let? created_at := time_req CCreatedAt (t CCreatedAt) in
  let? updated_at := time_req CUpdatedAt (t CUpdatedAt) in
  let? completed_at := time_opt CCompletedAt (t CCompletedAt) in
  let? priority_level := text_opt CPriorityLevel (t CPriorityLevel) in
  let? priority_set_at := time_opt CPrioritySetAt (t CPrioritySetAt) in
  if existsb (String.eqb status) valid_status_values
  then Ok (mkRow id title description status due_date created_at updated_at
                 completed_at priority_level priority_set_at)
  else Err check_violation.

Definition eval_sexpr (e : sexpr) (r : Row) : sqlval :=
  match e with
  | SVal v => v
  | SCoalesce VNull c => get_col c r
  | SCoalesce v _ => v
  end.

Definition has_id (id : string) (r : Row) : bool := String.eqb (r_id r) id.

(** [UPDATE ... SET sets WHERE k RETURNING *]: the updated rows and the new table. *)
Fixpoint update_rows (sets : list (col * sexpr)) (k : col * sqlval) (tbl : list Row)
    : result err (list Row * list Row) :=
  match tbl with
  | [] => Ok ([], [])
  | r :: tbl' =>
      let? rest := update_rows sets k tbl' in
      if where_holds k r then
        let? r' := make_row (fun c => match lookup_col c sets with
                                      | Some e => eval_sexpr e r
                                      | None => get_col c r
                                      end) in
        Ok (r' :: fst rest, r' :: snd rest)
      else Ok (fst rest, r :: snd rest)
  end.

(** A resolved statement on the table: the rows it returns and the new table. *)
Definition run_stmt (s : stmt) (tbl : list Row) : result err (list Row * list Row) :=
  match s with
  | SSelect w o =>
      let rows := match w with Some k => filter (where_holds k) tbl | None => tbl end in
      Ok (order_rows o rows, tbl)
  | SInsert vals =>
      let? r := make_row (fun c => match lookup_col c vals with
                                   | Some v => v
                                   | None => column_default c
                                   end) in
      if existsb (has_id (r_id r)) tbl then Err unique_violation
      else Ok ([r], tbl ++ [r])
  | SUpdate sets k => update_rows sets k tbl
  | SDelete k => Ok ([], filter (fun r => negb (where_holds k r)) tbl)
  end.

(** [db.query(text, params)] on the table [tbl]. *)
Definition exec_sql (q : Query) (tbl : list Row) : result err (list Row * list Row) :=
  let? s := analyze q in run_stmt s tbl.

(** ** The circuit breaker [dbBreaker]

    Modelled from the spec: the breaker object comes from the [opossum]
    package, which is not part of the repository; [createCircuitBreaker]
    only attaches log handlers. Section 4.2 of the spec: [closed] runs the
    operation and records its outcome, and opens when the failure percentage
    of the outcomes within the rolling window reaches the threshold; [open]
    fails fast without invoking the operation until [resetTimeout] has
    elapsed, then lets one trial through ([half_open]); a successful trial
    closes the breaker and resets the window, a failing one reopens it.
    The rolling window is kept as timestamped outcomes (its buckets only
    aggregate them); the fail-fast error carries opossum's code
    [EOPENBREAKER]. The options are [dbBreakerOptions]. *)

Inductive phase := Closed | Open (openedAt : Q) | HalfOpen.

Record Breaker := mkBreaker { b_phase : phase; b_window : list (Q * bool) }.

Definition errorThresholdPercentage : nat := 50.
Definition resetTimeout : Q := 30000.
Definition rollingCountTimeout : Q := 10000.

Definition fresh_breaker : Breaker := mkBreaker Closed [].

Definition open_circuit_error : err := mkErr (Some "EOPENBREAKER") "Breaker is open".

Definition in_window (now : Q) (o : Q * bool) : bool :=
  negb (Qle_bool rollingCountTimeout (now - fst o)).

Definition threshold_reached (now : Q) (window : list (Q * bool)) : bool :=
  let recent := filter (in_window now) window in
  let failures := List.length (filter (fun o => negb (snd o)) recent) in
  Nat.leb (errorThresholdPercentage * List.length recent) (100 * failures).

(** Record the outcome [ok] of a call admitted in phase [ph] at time [now]. *)
Definition record (ph : phase) (now : Q) (ok : bool) (br : Breaker) : Breaker :=
  let window := (now, ok) :: b_window br in
  match ph with
  | HalfOpen => if ok then mkBreaker Closed [] else mkBreaker (Open now) window
  | _ =>
      if ok then mkBreaker Closed window
      else if threshold_reached now window then mkBreaker (Open now) window
      else mkBreaker Closed window
  end.

(** The phase in which a call at [now] is admitted, or [None] when it fails fast. *)
Definition allow_request (now : Q) (br : Breaker) : option phase :=
  match b_phase br with
  | Open openedAt => if Qle_bool resetTimeout (now - openedAt) then Some HalfOpen else None
  | ph => Some ph
  end.

(** ** The world the service runs in *)

Record World := mkWorld {
  w_table : list Row;
  w_breaker : Breaker;
  w_clock : Q;                       (** milliseconds *)
  w_queries : nat;                   (** [db.query] calls so far *)
  w_faults : nat -> option err;      (** failure of the [n]-th [db.query] call *)
  w_draws : nat;                     (** [Math.random()] draws so far *)
  w_random : nat -> Q;               (** value of the [n]-th draw, in [[0,1)] *)
  w_uuids : nat;                     (** [uuidv4()] calls so far *)
  w_uuid : nat -> string             (** value of the [n]-th [uuidv4()] *)
}.

Definition set_table (tbl : list Row) (w : World) : World :=
  mkWorld tbl (w_breaker w) (w_clock w) (w_queries w) (w_faults w)
          (w_draws w) (w_random w) (w_uuids w) (w_uuid w).
Definition set_breaker (br : Breaker) (w : World) : World :=
  mkWorld (w_table w) br (w_clock w) (w_queries w) (w_faults w)
          (w_draws w) (w_random w) (w_uuids w) (w_uuid w).
Definition advance_clock (d : Q) (w : World) : World :=
  mkWorld (w_table w) (w_breaker w) (w_clock w + d)%Q (w_queries w) (w_faults w)
          (w_draws w) (w_random w) (w_uuids w) (w_uuid w).
Definition count_query (w : World) : World :=
  mkWorld (w_table w) (w_breaker w) (w_clock w) (S (w_queries w)) (w_faults w)
          (w_draws w) (w_random w) (w_uuids w) (w_uuid w).
Definition count_draw (w : World) : World :=
  mkWorld (w_table w) (w_breaker w) (w_clock w) (w_queries w) (w_faults w)
          (S (w_draws w)) (w_random w) (w_uuids w) (w_uuid w).
Definition count_uuid (w : World) : World :=
  mkWorld (w_table w) (w_breaker w) (w_clock w) (w_queries w) (w_faults w)
          (w_draws w) (w_random w) (S (w_uuids w)) (w_uuid w).

Definition Svc (A : Type) := M World err A.

(** [db.query(query, params)] for the statement [q], which [exec] runs on
    the table; a connection failure comes first. *)
Definition db_exec {R} (q : Query) (exec : list Row -> result err (list R * list Row))
    : Svc (list R) := fun w =>
  let w1 := count_query w in
  match w_faults w (w_queries w) with
  | Some e => (Err e, [EvDb q], w1)
  | None =>
      match exec (w_table w) with
      | Ok (rows, tbl) => (Ok rows, [EvDb q], set_table tbl w1)
      | Err e => (Err e, [EvDb q], w1)
      end
  end.

Definition db_query (q : Query) : Svc (list Row) := db_exec q (exec_sql q).

(** [dbBreaker.fire(query, params)]: the breaker around [op], the
    [db.query] of the statement [q]. *)
Definition fire {R} (q : Query) (op : Svc (list R)) : Svc (list R) := fun w =>
  let now := w_clock w in
  match allow_request now (w_breaker w) with
  | None => (Err open_circuit_error, [EvFire q], w)
  | Some ph =>
      let '(r, tr, w1) := op w in
      let ok := match r with Ok _ => true | Err _ => false end in
      (r, EvFire q :: tr, set_breaker (record ph now ok (w_breaker w1)) w1)
  end.

Definition breaker_fire (q : Query) : Svc (list Row) := fire q (db_query q).

Definition math_random : Svc Q := fun w =>
  (Ok (w_random w (w_draws w)), [], count_draw w).

Definition sleep_ms (d : Q) : Svc unit := fun w => (Ok tt, [], advance_clock d w).

(** [new Date().toISOString()] *)
Definition date_now : Svc Timestamp := fun w =>
  let t := Qfloor (w_clock w) in (Ok t, [EvNow t], w).

Definition uuidv4 : Svc string := fun w => (Ok (w_uuid w (w_uuids w)), [], count_uuid w).

(** [withRetry<QueryResult>(() => dbBreaker.fire(query, params))] with the defaults. *)
Definition db_call (q : Query) : Svc (list Row) :=
  withRetry math_random sleep_ms (breaker_fire q) 3 1000.


(** ** [TodoService] (part_002) *)

(** [row.key] on the object [pg] returns for a row: it has one property per
    column, named as the column; any other key reads [undefined]. *)
Definition row_prop (row : Row) (key : string) : option sqlval :=
  match col_of_name key with
  | Some c => Some (get_col c row)
  | None => None
  end.

(** [private mapRow(row)]: [notes] aliases [description]. The keys [id],
    [title], [description] and [status] are column names; [dueDate],
    [createdAt], [updatedAt] and [completedAt] are read with [row_prop]. *)
Definition mapRow (row : Row) : Todo :=
  mkTodo (r_id row) (r_title row) (r_description row) (r_status row)
         (row_prop row "dueDate") (row_prop row "createdAt") (row_prop row "updatedAt")
         (row_prop row "completedAt") (r_description row).

(** [mapRow(undefined)] when a statement returned no row. *)
Definition row0_error : err :=
  mkErr None "Cannot read properties of undefined (reading 'id')".

(** [this.mapRow(result.rows[0])] *)
Definition map_first_row (rows : list Row) : Svc Todo :=
  match rows with
  | row :: _ => ret (mapRow row)
  | [] => throw row0_error
  end.

Definition publish (kind : event_kind) (todo : Todo) : Svc unit :=
  tell [EvPublish kind (t_id todo) (t_title todo)].

(** [status ? ... : ...]: the empty string is falsy. *)
Definition truthy (status : option string) : option string :=
  match status with
  | Some st => if String.eqb st "" then None else Some st
  | None => None
  end.

Record CreateTodoInput := mkCreateTodoInput {
  c_title : string; c_description : option string; c_dueDate : option string }.

Record UpdateTodoInput := mkUpdateTodoInput {
  u_title : option string; u_description : option string;
  u_status : option string; u_dueDate : option string }.

Definition findAll (status : option string) : Svc (list Todo) :=
  result <- db_call (QSelectAll (truthy status)) ;;
  ret (map mapRow result).

Definition findById (id : string) : Svc (option Todo) :=
  result <- db_call (QSelectById id) ;;
  match result with
  | [] => ret None
  | row :: _ => ret (Some (mapRow row))
  end.

Definition create (input : CreateTodoInput) : Svc Todo :=
  id <- uuidv4 ;;
  now <- date_now ;;
  result <- db_call (QInsert id (c_title input) (c_description input) "PENDING"
                             (c_dueDate input) now now) ;;
  todo <- map_first_row result ;;
  publish Created todo ;;
  ret todo.

Definition update (id : string) (input : UpdateTodoInput) : Svc (option Todo) :=
  existing <- findById id ;;
  match existing with
  | None => ret None
  | Some _ =>
      now <- date_now ;;
      result <- db_call (QUpdate id (u_title input) (u_description input)
                                 (u_status input) (u_dueDate input) now) ;;
      todo <- map_first_row result ;;
      publish Updated todo ;;
      ret (Some todo)
  end.

Definition delete (id : string) : Svc (option Todo) :=
  existing <- findById id ;;
  match existing with
  | None => ret None
  | Some ex =>
      _ <- db_call (QDelete id) ;;
      publish Deleted ex ;;
      ret (Some ex)
  end.

Definition complete (id : string) : Svc (option Todo) :=
  existing <- findById id ;;
  match existing with
  | None => ret None
  | Some _ =>
      now <- date_now ;;
      result <- db_call (QComplete id now) ;;
      todo <- map_first_row result ;;
      publish Completed todo ;;
      ret (Some todo)
  end.

(** ** Validation (validation.ts): the two zod schemas and [validateInput]

    Strings are sequences of code units, one per [ascii]; zod reports every
    failing check, in the order of the schema's keys and checks. *)

Record FieldError := mkFieldError { fe_field : string; fe_message : string }.

Inductive validated (A : Type) : Type :=
| Valid (a : A)
| Invalid (fields : list FieldError).
Arguments Valid {A} a.
Arguments Invalid {A} fields.

Definition is_digit (c : ascii) : bool :=
  Nat.leb 48 (nat_of_ascii c) && Nat.leb (nat_of_ascii c) 57.

(** [/^\d{4}-\d{2}-\d{2}$/] *)
Definition date_format_ok (s : string) : bool :=
  match s with
  | String y1 (String y2 (String y3 (String y4 (String h1 (String m1 (String m2
      (String h2 (String d1 (String d2 EmptyString))))))))) =>
      is_digit y1 && is_digit y2 && is_digit y3 && is_digit y4
      && Ascii.eqb h1 "-"%char && is_digit m1 && is_digit m2
      && Ascii.eqb h2 "-"%char && is_digit d1 && is_digit d2
  | _ => false
  end.

Definition title_issues (title : string) : list FieldError :=
  (if Nat.ltb (String.length title) 3
   then [mkFieldError "title" "Title must be at least 3 characters"] else [])
  ++ (if Nat.ltb 200 (String.length title)
      then [mkFieldError "title" "Title must not exceed 200 characters"] else []).

Definition description_issues (description : option string) : list FieldError :=
  match description with
  | Some d => if Nat.ltb 1000 (String.length d)
              then [mkFieldError "description" "Description must not exceed 1000 characters"]
              else []
  | None => []
  end.

Definition dueDate_issues (dueDate : option string) : list FieldError :=
  match dueDate with
  | Some d => if date_format_ok d then [] else [mkFieldError "dueDate" "Must be YYYY-MM-DD format"]
  | None => []
  end.

Definition status_values : list string := ["PENDING"; "IN_PROGRESS"; "COMPLETED"; "ARCHIVED"].

Definition status_issues (status : option string) : list FieldError :=
  match status with
  | Some st => if existsb (String.eqb st) status_values then []
               else [mkFieldError "status"
                       "Status must be one of: PENDING, IN_PROGRESS, COMPLETED, ARCHIVED"]
  | None => []
  end.

(** [validateInput(CreateTodoInputSchema, input)] *)
Definition validateCreateInput (input : CreateTodoInput) : validated CreateTodoInput :=
  match title_issues (c_title input) ++ description_issues (c_description input)
        ++ dueDate_issues (c_dueDate input) with
  | [] => Valid input
  | fields => Invalid fields
  end.

(** [validateInput(UpdateTodoInputSchema, input)] *)
Definition validateUpdateInput (input : UpdateTodoInput) : validated UpdateTodoInput :=
  match match u_title input with Some t => title_issues t | None => [] end
        ++ description_issues (u_description input)
        ++ status_issues (u_status input) ++ dueDate_issues (u_dueDate input) with
  | [] => Valid input
  | fields => Invalid fields
  end.

(** ** Resolvers (todoResolver.ts) *)

(** [new GraphQLError(message, { extensions: { code, originalError } })] *)
Record GraphQLError := mkGraphQLError {
  gql_message : string; gql_code : string; gql_originalError : string }.

(** [{ __typename: 'ValidationError', message: 'Input validation failed',
       code: 'VALIDATION_ERROR', fields }] is [ValidationError fields];
    [{ __typename: 'TodoNotFoundError', message: 'Todo not found',
       code: 'TODO_NOT_FOUND', todoId }] is [TodoNotFoundError todoId]. *)
Inductive CreateTodoResult :=
| CreateValidationError (fields : list FieldError)
| CreateTodoSuccess (todo : Todo).

Inductive UpdateTodoResult :=
| UpdateValidationError (fields : list FieldError)
| TodoNotFoundError (todoId : string)
| UpdatedTodo (todo : Todo).

Definition Resolver (A : Type) := M World GraphQLError A.

Definition createTodo (correlationId : string) (input : CreateTodoInput)
    : Resolver CreateTodoResult :=
  tell [EvLog LInfo correlationId "Creating todo" None] ;;
  match validateCreateInput input with
  | Invalid fields =>
      tell [EvLog LWarn correlationId "Validation failed" None] ;;
      ret (CreateValidationError fields)
  | Valid validated =>
      try_catch
        (todo <- create validated ;;
         tell [EvLog LInfo correlationId "Todo created" None] ;;
         ret (CreateTodoSuccess todo))
        (fun error =>
           tell [EvLog LError correlationId "Failed to create todo" (Some (err_message error))] ;;
           throw (mkGraphQLError "Failed to create todo" "INTERNAL_ERROR" (err_message error)))
  end.

Definition updateTodo (correlationId id : string) (input : UpdateTodoInput)
    : Resolver UpdateTodoResult :=
  tell [EvLog LInfo correlationId "Updating todo" None] ;;
  match validateUpdateInput input with
  | Invalid fields => ret (UpdateValidationError fields)
  | Valid validated =>
      try_catch
        (todo <- update id validated ;;
         match todo with
         | None => ret (TodoNotFoundError id)
         | Some t =>
             tell [EvLog LInfo correlationId "Todo updated" None] ;;
             ret (UpdatedTodo t)
         end)
        (fun error =>
           tell [EvLog LError correlationId "Failed to update todo" (Some (err_message error))] ;;
           throw (mkGraphQLError "Failed to update todo" "INTERNAL_ERROR" (err_message error)))
  end.


(** ** Concrete worlds and trace counters *)

Definition fires (tr : list event) : nat :=
  List.length (filter (fun e => match e with EvFire _ => true | _ => false end) tr).

Definition db_calls (tr : list event) : nat :=
  List.length (filter (fun e => match e with EvDb _ => true | _ => false end) tr).

Fixpoint publications (tr : list event) : list (event_kind * string * string) :=
  match tr with
  | [] => []
  | EvPublish k i t :: tr' => (k, i, t) :: publications tr'
  | _ :: tr' => publications tr'
  end.

Definition no_faults : nat -> option err := fun _ => None.
Definition always (e : err) : nat -> option err := fun _ => Some e.

Definition world (tbl : list Row) (br : Breaker) (faults : nat -> option err) : World :=
  mkWorld tbl br 0 0 faults 0 (fun _ => (1 # 2)%Q) 0 (fun _ => "7f1c-uuid").

Definition row1 : Row :=
  mkRow "t1" "Buy milk" (Some "two litres") "PENDING" None 1000%Z 1000%Z None None None.


(** ** Predicates used by the statements about the service *)

Definition query_event (q : Query) (e : event) : Prop := e = EvFire q \/ e = EvDb q.

Definition table_stable (w w' : World) : Prop := w_table w' = w_table w.

(** A successful statement: its rows and the new table, as [exec_sql] gives them. *)
Definition query_done (q : Query) (w w' : World) (rows : list Row) : Prop :=
  exec_sql q (w_table w) = Ok (rows, w_table w').

Definition notes_alias (t : Todo) : Prop := t_notes t = t_description t.

Definition opt_notes_alias (o : option Todo) : Prop :=
  match o with Some t => notes_alias t | None => True end.

(** [P] holds of the value returned by a run, if it returns one. *)
Definition returned {E A S} (P : A -> Prop) (run : result E A * list event * S) : Prop :=
  match run with (Ok a, _, _) => P a | (Err _, _, _) => True end.

(** [P] holds of whatever [m] returns, from every state. *)
Definition holds {St E A} (P : A -> Prop) (m : M St E A) : Prop :=
  forall s, returned P (m s).


(** A breaker whose rolling window holds ten recent successes. *)
Definition warm_breaker : Breaker := mkBreaker Closed (repeat (0%Q, true) 10).

Definition internal_error (message : string) (e : err) : GraphQLError :=
  mkGraphQLError message "INTERNAL_ERROR" (err_message e).

(** From the next [db.query] call on, every call fails with a timeout. *)
Definition timeouts_from (w : World) : Prop :=
  forall i, w_queries w <= i -> w_faults w i = Some timeout_err.


(** ** The remaining resolvers (todoResolver.ts, lines 10-54 and 127-210) *)

(** [todos(_, { status }, context)] *)
Definition todos (correlationId : string) (status : option string) : Resolver (list Todo) :=
  tell [EvLog LInfo correlationId "Fetching todos" None] ;;
  try_catch
    (ts <- findAll status ;;
     tell [EvLog LInfo correlationId "Todos fetched" None] ;;
     ret ts)
    (fun error =>
       tell [EvLog LError correlationId "Failed to fetch todos" (Some (err_message error))] ;;
       throw (mkGraphQLError "Failed to fetch todos" "INTERNAL_ERROR" (err_message error))).

(** [todo(_, { id }, context)]: [null] is [None]. *)
Definition todo (correlationId id : string) : Resolver (option Todo) :=
  tell [EvLog LInfo correlationId "Fetching todo" None] ;;
  try_catch
    (t <- findById id ;;
     match t with
     | None =>
         tell [EvLog LWarn correlationId "Todo not found" None] ;;
         ret None
     | Some t => ret (Some t)
     end)
    (fun error =>
       tell [EvLog LError correlationId "Failed to fetch todo" (Some (err_message error))] ;;
       throw (mkGraphQLError "Failed to fetch todo" "INTERNAL_ERROR" (err_message error))).

(** The [DeleteTodoResult] union: [TodoNotFoundError] or the deleted [Todo]. *)
Inductive DeleteTodoResult :=
| DeleteTodoNotFound (todoId : string)
| DeletedTodo (todo : Todo).

(** [deleteTodo(_, { id }, context)] *)
Definition deleteTodo (correlationId id : string) : Resolver DeleteTodoResult :=
  tell [EvLog LInfo correlationId "Deleting todo" None] ;;
  try_catch
    (t <- delete id ;;
     match t with
     | None => ret (DeleteTodoNotFound id)
     | Some t =>
         tell [EvLog LInfo correlationId "Todo deleted" None] ;;
         ret (DeletedTodo t)
     end)
    (fun error =>
       tell [EvLog LError correlationId "Failed to delete todo" (Some (err_message error))] ;;
       throw (mkGraphQLError "Failed to delete todo" "INTERNAL_ERROR" (err_message error))).

(** [completeTodo(_, { id }, context)]: its result is an [UpdateTodoResult]. *)
Definition completeTodo (correlationId id : string) : Resolver UpdateTodoResult :=
  tell [EvLog LInfo correlationId "Completing todo" None] ;;
  try_catch
    (t <- complete id ;;
     match t with
     | None => ret (TodoNotFoundError id)
     | Some t =>
         tell [EvLog LInfo correlationId "Todo completed" None] ;;
         ret (UpdatedTodo t)
     end)
    (fun error =>
       tell [EvLog LError correlationId "Failed to complete todo" (Some (err_message error))] ;;
       throw (mkGraphQLError "Failed to complete todo" "INTERNAL_ERROR" (err_message error))).

(** ** [TodoService.addTag] (part_002, lines 156-175) and the [addTag] mutation *)

Record TagRow := mkTagRow {
  tg_id : string; tg_todoId : string; tg_tagName : string; tg_tagColor : string;
  tg_createdAt : Timestamp }.

(** [{ id, tagName, tagColor, createdAt }] read from [result.rows[0]]. *)
Record Tag := mkTag {
  tag_id : string; tag_tagName : string; tag_tagColor : string; tag_createdAt : Timestamp }.

(** The [AddTagResult] union: [TodoNotFoundError] or [AddTagSuccess]. *)
Inductive AddTagResult :=
| AddTagNotFound (todoId : string)
| AddTagSuccess (tag : Tag).

(** The tag statement with its parameters. *)
Definition tag_query (row : TagRow) : Query :=
  QInsertTag (tg_id row) (tg_todoId row) (tg_tagName row) (tg_tagColor row) (tg_createdAt row).

Section AddTag.
(** [db.query('INSERT INTO todoTags ... RETURNING *', ...)], as a parameter:
    [db_insert_tag] below is what it does on the database of [initDatabase]. *)
Variable insert_tag : TagRow -> Svc (list TagRow).

(** [dbBreaker.fire(...)] on the tag statement: the same breaker as
    [breaker_fire], around [insert_tag]. *)
Definition tag_fire (row : TagRow) : Svc (list TagRow) := fire (tag_query row) (insert_tag row).

Definition addTag (todoId tagName tagColor : string) : Svc Tag :=
  tagId <- uuidv4 ;;
  createdAt <- date_now ;;
  result <- withRetry math_random sleep_ms
              (tag_fire (mkTagRow tagId todoId tagName tagColor createdAt)) 3 1000 ;;
  match result with
  | row :: _ => ret (mkTag (tg_id row) (tg_tagName row) (tg_tagColor row) (tg_createdAt row))
  | [] => throw row0_error
  end.

(** The [addTag] mutation: it has no [try]/[catch], so a failure of the
    service reaches the caller as it is. *)
Definition addTagResolver (correlationId todoId tagName tagColor : string)
    : M World err AddTagResult :=
  tell [EvLog LInfo correlationId "Adding tag to todo" None] ;;
  t <- findById todoId ;;
  match t with
  | None => ret (AddTagNotFound todoId)
  | Some _ =>
      tag <- addTag todoId tagName tagColor ;;
      tell [EvLog LInfo correlationId "Tag added successfully" None] ;;
      ret (AddTagSuccess tag)
  end.
End AddTag.

(** The tag statement on the database of [initDatabase]: there is no
    relation [todotags], so it fails at name resolution, with the error
    [analyze (tag_query row)] gives. *)
Definition exec_tag_sql (row : TagRow) (tbl : list Row) : result err (list TagRow * list Row) :=
  Err (undefined_table (fold_ident "todoTags")).

Definition db_insert_tag (row : TagRow) : Svc (list TagRow) :=
  db_exec (tag_query row) (exec_tag_sql row).

(** ** The subscriptions of the event bus (resilience.ts, lines 89-109) *)

(** Values of the [data] object: strings, timestamps, and [undefined]. *)
Inductive jvalue := JStr (s : string) | JTime (t : Timestamp) | JUndefined.

Record CloudEvent := mkCloudEvent {
  ce_id : string; ce_source : string; ce_specversion : string; ce_type : string;
  ce_datacontenttype : string; ce_time : Timestamp; ce_subject : option string;
  ce_data : list (string * jvalue) }.

Section EventBus.
Variable St : Type.

Definition Handler : Type := CloudEvent -> M St err unit.

(** [Map<string, Array<handler>>], keys in insertion order. *)
Definition HandlerMap : Type := list (string * list Handler).

Fixpoint map_get (k : string) (m : HandlerMap) : option (list Handler) :=
  match m with
  | [] => None
  | (k', v) :: m' => if String.eqb k' k then Some v else map_get k m'
  end.

Definition map_has (k : string) (m : HandlerMap) : bool :=
  match map_get k m with Some _ => true | None => false end.

Fixpoint map_set (k : string) (v : list Handler) (m : HandlerMap) : HandlerMap :=
  match m with
  | [] => [(k, v)]
  | (k', v') :: m' => if String.eqb k' k then (k, v) :: m' else (k', v') :: map_set k v m'
  end.

(** [subscribe(eventType, handler)]: [get(eventType)!.push(handler)] appends
    to the array held by the map. *)
Definition eventBus_subscribe (eventType : string) (handler : Handler) (handlers : HandlerMap)
    : HandlerMap :=
  let handlers := if map_has eventType handlers then handlers
                  else map_set eventType [] handlers in
  match map_get eventType handlers with
  | Some hs => map_set eventType (hs ++ [handler]) handlers
  | None => handlers
  end.

End EventBus.

Arguments map_get {St} k m.
Arguments map_has {St} k m.
Arguments map_set {St} k v m.
Arguments eventBus_subscribe {St} eventType handler handlers.

(** The handlers subscribed to [eventType], [handlers.get(eventType) || []]. *)
Definition handlers_for {St} (eventType : string) (m : HandlerMap St) : list (Handler St) :=
  match map_get eventType m with Some hs => hs | None => [] end.

(** ** Health checks (todo-app/src/utils/health.ts) and [initDatabase]
    (part_002, lines 218-251) *)

(** [db.query(sql)] issued on the pool itself, without breaker or retry, for
    a statement whose rows are not used ([SELECT 1] and the DDL statements,
    which leave the rows of [todos] as they are). *)
Definition pool_query (sql : string) : Svc unit := fun w =>
  let w1 := count_query w in
  match w_faults w (w_queries w) with
  | Some e => (Err e, [], w1)
  | None => (Ok tt, [], w1)
  end.

Record HealthCheck := mkHealthCheck {
  hc_status : string; hc_responseTime : option Z; hc_error : option string }.

(** [res.status(code).json({ status, timestamp, checks: { database } })] *)
Record HealthResponse := mkHealthResponse {
  res_code : nat; res_status : string; res_timestamp : Timestamp; res_database : HealthCheck }.

Definition checkDatabase : Svc HealthCheck :=
  start <- date_now ;;
  try_catch
    (pool_query "SELECT 1" ;;
     stop <- date_now ;;
     ret (mkHealthCheck "ok" (Some (stop - start)%Z) None))
    (fun error =>
       tell [EvLog LError "" "Database health check failed" (Some (err_message error))] ;;
       ret (mkHealthCheck "fail" None (Some (err_message error)))).

Definition readinessCheck : Svc HealthResponse :=
  database <- checkDatabase ;;
  let isReady := String.eqb (hc_status database) "ok" in
  if isReady then
    timestamp <- date_now ;;
    ret (mkHealthResponse 200 "ready" timestamp database)
  else
    timestamp <- date_now ;;
    ret (mkHealthResponse 503 "not ready" timestamp database).

Definition initDatabase : Svc unit :=
  try_catch
    (pool_query "CREATE TABLE IF NOT EXISTS todos (...)" ;;
     pool_query "CREATE INDEX IF NOT EXISTS idx_todos_status ON todos(status)" ;;
     pool_query "CREATE INDEX IF NOT EXISTS idx_todos_created_at ON todos(created_at DESC)" ;;
     tell [EvLog LInfo "" "Database initialized successfully" None])
    (fun error =>
       tell [EvLog LError "" "Database initialization failed" (Some (err_message error))] ;;
       throw error).

(** ** The snake_case to camelCase rewrite of the auto-fix script (part_000) *)

Definition is_lower (c : ascii) : bool :=
  Nat.leb 97 (nat_of_ascii c) && Nat.leb (nat_of_ascii c) 122.

(** [letter.toUpperCase()] on a letter [a-z]. *)
Definition to_upper (c : ascii) : ascii := ascii_of_nat (nat_of_ascii c - 32).

(** [s.replace(/_([a-z])/g, (_, letter) => letter.toUpperCase())]: the
    global replace scans from the left and resumes after each match. *)
Fixpoint snake_to_camel (s : string) : string :=
  match s with
  | EmptyString => EmptyString
  | String c rest =>
      if Ascii.eqb c "_"%char then
        match rest with
        | String l rest' =>
            if is_lower l then String (to_upper l) (snake_to_camel rest')
            else String c (snake_to_camel rest)
        | EmptyString => String c EmptyString
        end
      else String c (snake_to_camel rest)
  end.

(** [/_([a-z])/.test(s)] *)
Fixpoint has_snake (s : string) : bool :=
  match s with
  | EmptyString => false
  | String c rest =>
      (Ascii.eqb c "_"%char && match rest with String l _ => is_lower l | EmptyString => false end)
      || has_snake rest
  end.


(** * Properties *)

Example probe_ex1 :
  let '(r, tr, p) := probe_retry (fun _ => 0.5%Q)
      (fun n => if Nat.ltb n 2 then Err timeout_err else Ok 7%nat) 3 1000 p0 in
  r = Ok 7%nat /\ attempts tr = 3%nat /\ map Qred (sleeps tr) = [1500; 2500]%Q.
Proof. vm_compute. repeat split; reflexivity. Qed.


(** ** Doubles: rounding to binary64 *)

Section Binary64.
Local Open Scope Q_scope.

Lemma Zlt_Q (x y : Z) : (x < y)%Z -> inject_Z x < inject_Z y.
Proof. rewrite Zlt_Qlt. exact (fun H => H). Qed.

Lemma Zle_Q (x y : Z) : (x <= y)%Z -> inject_Z x <= inject_Z y.
Proof. rewrite Zle_Qle. exact (fun H => H). Qed.

Lemma pw_pos (e : Z) : 0 < 2 ^ e.
Proof. apply Qpower_0_lt. reflexivity. Qed.

Lemma pw_plus (a b : Z) : 2 ^ (a + b) == 2 ^ a * 2 ^ b.
Proof. apply Qpower_plus. unfold Qeq. cbn. discriminate. Qed.

Lemma pw_lt (a b : Z) : (a < b)%Z -> 2 ^ a < 2 ^ b.
Proof. intros H. apply Qpower_lt_compat_l; [exact H | reflexivity]. Qed.

Lemma pw_le (a b : Z) : (a <= b)%Z -> 2 ^ a <= 2 ^ b.
Proof. intros H. apply Qpower_le_compat_l; [exact H | discriminate]. Qed.

Lemma pw_lt_inv (a b : Z) : 2 ^ a < 2 ^ b -> (a < b)%Z.
Proof. intros H. exact (Qpower_lt_compat_l_inv 2 a b H eq_refl). Qed.

Lemma pw_Z (n : Z) : (0 <= n)%Z -> inject_Z (2 ^ n) == 2 ^ n.
Proof. intros H. apply Zpower_Qpower. exact H. Qed.

Lemma qlog2_spec (x : Q) : 0 < x -> 2 ^ qlog2 x <= x < 2 ^ (qlog2 x + 1).
Proof.
  destruct x as [p d]. intros Hx.
  assert (Hp : (0 < p)%Z) by (unfold Qlt in Hx; cbn in Hx; lia).
  unfold qlog2. cbn [Qnum Qden].
  pose proof (Z.log2_nonneg p) as Lp0. pose proof (Z.log2_nonneg (Zpos d)) as Ld0.
  set (lp := Z.log2 p). set (ld := Z.log2 (Zpos d)).
  pose proof (Z.log2_spec p Hp) as [Hp1 Hp2].
  pose proof (Z.log2_spec (Zpos d) eq_refl) as [Hd1 Hd2].
  fold lp in Hp1, Hp2. fold ld in Hd1, Hd2. unfold Z.succ in Hp2, Hd2.
  assert (Hx_eq : (p # d) * inject_Z (Zpos d) == inject_Z p)
    by (unfold Qeq; cbn; lia).
  assert (Hd0 : 0 < inject_Z (Zpos d)) by (unfold Qlt; cbn; lia).
  assert (Hup : (p # d) < 2 ^ (lp - ld + 1)).
  { apply (Qmult_lt_r _ _ (inject_Z (Zpos d))); [exact Hd0|]. rewrite Hx_eq.
    apply Qlt_le_trans with (2 ^ (lp - ld + 1) * 2 ^ ld).
    - rewrite <- pw_plus. replace (lp - ld + 1 + ld)%Z with (lp + 1)%Z by lia.
      rewrite <- (pw_Z (lp + 1)) by lia. apply Zlt_Q. exact Hp2.
    - apply Qmult_le_l; [apply pw_pos|]. rewrite <- (pw_Z ld) by lia.
      apply Zle_Q. exact Hd1. }
  assert (Hlo : 2 ^ (lp - ld - 1) < (p # d)).
  { apply (Qmult_lt_r _ _ (inject_Z (Zpos d))); [exact Hd0|]. rewrite Hx_eq.
    apply Qlt_le_trans with (2 ^ (lp - ld - 1) * 2 ^ (ld + 1)).
    - apply Qmult_lt_l; [apply pw_pos|]. rewrite <- (pw_Z (ld + 1)) by lia.
      apply Zlt_Q. exact Hd2.
    - rewrite <- pw_plus. replace (lp - ld - 1 + (ld + 1))%Z with lp by lia.
      rewrite <- (pw_Z lp) by lia. apply Zle_Q. exact Hp1. }
  destruct (Qle_bool (2 ^ (lp - ld)) (p # d)) eqn:E.
  - apply Qle_bool_iff in E. split; [exact E | exact Hup].
  - split; [apply Qlt_le_weak; exact Hlo|].
    replace (lp - ld - 1 + 1)%Z with (lp - ld)%Z by lia.
    apply Qnot_le_lt. intros H. apply Qle_bool_iff in H. congruence.
Qed.

Lemma qlog2_unique (x : Q) (a : Z) :
  0 < x -> 2 ^ a <= x < 2 ^ (a + 1) -> qlog2 x = a.
Proof.
  intros Hx [H1 H2]. destruct (qlog2_spec x Hx) as [H3 H4].
  assert (qlog2 x < a + 1)%Z by (apply pw_lt_inv; eapply Qle_lt_trans; eassumption).
  assert (a < qlog2 x + 1)%Z by (apply pw_lt_inv; eapply Qle_lt_trans; eassumption).
  lia.
Qed.

Lemma qlog2_comp (x y : Q) : 0 < x -> x == y -> qlog2 x = qlog2 y.
Proof.
  intros Hx H. symmetry. apply qlog2_unique; [rewrite <- H; exact Hx|].
  rewrite <- H. apply qlog2_spec. exact Hx.
Qed.

Lemma round_even_comp (x y : Q) : x == y -> round_even x = round_even y.
Proof.
  intros H. unfold round_even. rewrite (Qfloor_comp x y H).
  assert (Hc : (x - inject_Z (Qfloor y) ?= 1 # 2) = (y - inject_Z (Qfloor y) ?= 1 # 2))
    by (apply Qcompare_comp; [rewrite H|]; reflexivity).
  rewrite Hc. reflexivity.
Qed.

Lemma round_even_Z (n : Z) : round_even (inject_Z n) = n.
Proof.
  unfold round_even. rewrite Qfloor_Z.
  assert (H : inject_Z n - inject_Z n < 1 # 2) by lra.
  rewrite (proj1 (Qlt_alt _ _) H). reflexivity.
Qed.

Lemma round_even_bounds (x : Q) :
  (Qfloor x <= round_even x <= Qfloor x + 1)%Z.
Proof.
  unfold round_even.
  destruct (_ ?= _); [destruct (Z.even _)|..]; lia.
Qed.

Lemma round_even_mono (x y : Q) : x <= y -> (round_even x <= round_even y)%Z.
Proof.
  intros Hxy. pose proof (Qfloor_resp_le x y Hxy) as Hf.
  pose proof (round_even_bounds x) as Bx. pose proof (round_even_bounds y) as By.
  destruct (Z.eq_dec (Qfloor x) (Qfloor y)) as [Heq|Hne]; [|lia].
  unfold round_even in *. rewrite <- Heq in *.
  set (f := Qfloor x) in *.
  destruct (x - inject_Z f ?= 1 # 2) eqn:Cx, (y - inject_Z f ?= 1 # 2) eqn:Cy;
    try lia;
    repeat match goal with
    | H : (_ ?= _) = Eq |- _ => apply Qeq_alt in H
    | H : (_ ?= _) = Lt |- _ => apply Qlt_alt in H
    | H : (_ ?= _) = Gt |- _ => apply Qgt_alt in H
    end; try lra.
Qed.

Lemma Qabs_nonneg_eq (x : Q) : 0 <= x -> Qabs x = x.
Proof.
  destruct x as [p d]. unfold Qle. cbn. intros H. unfold Qabs.
  rewrite Z.abs_eq by lia. reflexivity.
Qed.

Lemma round64_pos_form (x : Q) :
  0 < x ->
  round64 x = inject_Z (round_even (x * 2 ^ (- fexp x))) * 2 ^ fexp x
  /\ fexp x = Z.max (-1074) (qlog2 x - 52).
Proof.
  intros Hx. unfold round64, fexp. rewrite Qabs_nonneg_eq by lra.
  destruct (Qeq_bool x 0) eqn:E; [apply Qeq_bool_iff in E; lra|]. split; reflexivity.
Qed.

Lemma round64_nonneg (x : Q) : 0 <= x -> 0 <= round64 x.
Proof.
  intros Hx. unfold round64. destruct (Qeq_bool x 0); [lra|].
  apply Qmult_le_0_compat; [|apply Qlt_le_weak, pw_pos].
  change 0 with (inject_Z 0). apply Zle_Q.
  pose proof (round_even_bounds (x * 2 ^ (- fexp x))) as [H _].
  assert (0 <= x * 2 ^ (- fexp x)) by (apply Qmult_le_0_compat; [exact Hx | apply Qlt_le_weak, pw_pos]).
  pose proof (Qfloor_resp_le 0 _ H0) as H1. change (Qfloor 0) with 0%Z in H1. lia.
Qed.

(** The scaled value is below [2^53] at the rounding exponent. *)
Lemma scaled_lt (x : Q) (e : Z) :
  0 < x -> (qlog2 x - 52 <= e)%Z -> x * 2 ^ (- e) < inject_Z (2 ^ 53).
Proof.
  intros Hx He. destruct (qlog2_spec x Hx) as [_ H2].
  rewrite pw_Z by lia.
  apply Qlt_le_trans with (2 ^ (qlog2 x + 1) * 2 ^ (- e)).
  - apply Qmult_lt_r; [apply pw_pos | exact H2].
  - rewrite <- pw_plus. apply pw_le. lia.
Qed.

Lemma round64_mono (x y : Q) : 0 <= x -> x <= y -> round64 x <= round64 y.
Proof.
  intros Hx Hxy.
  destruct (Qeq_bool x 0) eqn:Ex.
  { unfold round64 at 1. rewrite Ex. apply round64_nonneg. lra. }
  assert (Hx' : 0 < x).
  { apply Qle_lteq in Hx. destruct Hx as [Hx|Hx]; [exact Hx|].
    exfalso. assert (Qeq_bool x 0 = true) by (apply Qeq_bool_iff; symmetry; exact Hx). congruence. }
  assert (Hy : 0 < y) by lra.
  destruct (round64_pos_form x Hx') as [-> Fx].
  destruct (round64_pos_form y Hy) as [-> Fy].
  destruct (qlog2_spec x Hx') as [Lx1 Lx2]. destruct (qlog2_spec y Hy) as [Ly1 Ly2].
  assert (Hl : (qlog2 x <= qlog2 y)%Z).
  { assert (qlog2 x < qlog2 y + 1)%Z; [|lia].
    apply pw_lt_inv. apply Qle_lt_trans with x; [exact Lx1|]. lra. }
  destruct (Z.eq_dec (fexp x) (fexp y)) as [He|Hne].
  - rewrite He. apply Qmult_le_compat_r; [|apply Qlt_le_weak, pw_pos].
    apply Zle_Q. apply round_even_mono.
    apply Qmult_le_compat_r; [exact Hxy | apply Qlt_le_weak, pw_pos].
  - assert (Hlt : (fexp x < fexp y)%Z) by lia.
    assert (Hey : fexp y = (qlog2 y - 52)%Z) by lia.
    apply Qle_trans with (2 ^ qlog2 y).
    + apply Qle_trans with (inject_Z (2 ^ 53) * 2 ^ fexp x).
      * apply Qmult_le_compat_r; [|apply Qlt_le_weak, pw_pos].
        apply Zle_Q. rewrite <- (round_even_Z (2 ^ 53)).
        apply round_even_mono. apply Qlt_le_weak. apply scaled_lt; [exact Hx' | lia].
      * rewrite pw_Z by lia. rewrite <- pw_plus. apply pw_le. lia.
    + apply Qle_trans with (inject_Z (2 ^ 52) * 2 ^ fexp y).
      * rewrite pw_Z by lia. rewrite <- pw_plus. apply pw_le. lia.
      * apply Qmult_le_compat_r; [|apply Qlt_le_weak, pw_pos].
        apply Zle_Q. rewrite <- (round_even_Z (2 ^ 52)).
        apply round_even_mono. rewrite pw_Z by lia.
        apply Qle_trans with (2 ^ qlog2 y * 2 ^ (- fexp y)).
        -- rewrite <- pw_plus. apply pw_le. lia.
        -- apply Qmult_le_compat_r; [exact Ly1 | apply Qlt_le_weak, pw_pos].
Qed.

Lemma round64_exact (n e : Z) :
  (0 <= n < 2 ^ 53)%Z -> (-1074 <= e)%Z -> round64 (inject_Z n * 2 ^ e) == inject_Z n * 2 ^ e.
Proof.
  intros Hn He.
  destruct (Z.eq_dec n 0) as [->|Hn0].
  { unfold round64.
    assert (E : Qeq_bool (inject_Z 0 * 2 ^ e) 0 = true) by (apply Qeq_bool_iff; ring).
    rewrite E. ring. }
  assert (Hx : 0 < inject_Z n * 2 ^ e).
  { apply Qmult_lt_0_compat; [|apply pw_pos]. change 0 with (inject_Z 0). apply Zlt_Q. lia. }
  destruct (round64_pos_form _ Hx) as [-> Fx].
  pose proof (Z.log2_spec n ltac:(lia)) as [N1 N2]. unfold Z.succ in N2.
  assert (Hl : qlog2 (inject_Z n * 2 ^ e) = (Z.log2 n + e)%Z).
  { apply qlog2_unique; [exact Hx|]. rewrite (pw_plus (Z.log2 n) e). split.
    - apply Qmult_le_compat_r; [|apply Qlt_le_weak, pw_pos].
      rewrite <- pw_Z by (apply Z.log2_nonneg). apply Zle_Q. exact N1.
    - replace (Z.log2 n + e + 1)%Z with (Z.log2 n + 1 + e)%Z by lia. rewrite (pw_plus (Z.log2 n + 1) e).
      apply Qmult_lt_r; [apply pw_pos|].
      rewrite <- pw_Z by (pose proof (Z.log2_nonneg n); lia). apply Zlt_Q. exact N2. }
  assert (Hlog : (Z.log2 n < 53)%Z) by (apply Z.log2_lt_pow2; lia).
  assert (Hf : (fexp (inject_Z n * 2 ^ e) <= e)%Z) by lia.
  set (f := fexp (inject_Z n * 2 ^ e)) in *.
  assert (Hs : inject_Z n * 2 ^ e * 2 ^ (- f) == inject_Z (n * 2 ^ (e - f))).
  { rewrite inject_Z_mult, pw_Z by lia. rewrite <- Qmult_assoc, <- pw_plus.
    replace (e + - f)%Z with (e - f)%Z by lia. reflexivity. }
  rewrite (round_even_comp _ _ Hs), round_even_Z.
  rewrite inject_Z_mult, pw_Z by lia. rewrite <- Qmult_assoc, <- pw_plus.
  replace (e - f + f)%Z with e by lia. reflexivity.
Qed.

Lemma round64_comp (x y : Q) : 0 <= x -> x == y -> round64 x == round64 y.
Proof.
  intros Hx H.
  destruct (Qeq_bool x 0) eqn:Ex.
  - unfold round64. rewrite Ex.
    assert (Ey : Qeq_bool y 0 = true) by (apply Qeq_bool_iff; apply Qeq_bool_iff in Ex; rewrite <- H; exact Ex).
    rewrite Ey. reflexivity.
  - assert (Hx' : 0 < x).
    { apply Qle_lteq in Hx. destruct Hx as [Hx|Hx]; [exact Hx|].
      exfalso. assert (Qeq_bool x 0 = true) by (apply Qeq_bool_iff; symmetry; exact Hx). congruence. }
    assert (Hy : 0 < y) by (rewrite <- H; exact Hx').
    destruct (round64_pos_form x Hx') as [-> Fx].
    destruct (round64_pos_form y Hy) as [-> Fy].
    assert (He : fexp x = fexp y) by (rewrite Fx, Fy, (qlog2_comp x y Hx' H); reflexivity).
    rewrite He. rewrite (round_even_comp (x * 2 ^ (- fexp y)) (y * 2 ^ (- fexp y))).
    + reflexivity.
    + rewrite H. reflexivity.
Qed.

(** A non-negative double scaled by a power of two [2^k], [k >= 0], is a double. *)
Lemma round64_double_scale (b : Q) (k : Z) :
  0 <= b -> round64 b == b -> (0 <= k)%Z -> round64 (b * 2 ^ k) == b * 2 ^ k.
Proof.
  intros Hb Hr Hk.
  destruct (Qeq_bool b 0) eqn:Eb.
  - apply Qeq_bool_iff in Eb.
    assert (H0 : b * 2 ^ k == 0) by (rewrite Eb; ring).
    rewrite (round64_comp _ _ (Qmult_le_0_compat _ _ Hb (Qlt_le_weak _ _ (pw_pos k))) H0).
    rewrite H0. reflexivity.
  - assert (Hb' : 0 < b).
    { apply Qle_lteq in Hb. destruct Hb as [Hb|Hb]; [exact Hb|].
      exfalso. assert (Qeq_bool b 0 = true) by (apply Qeq_bool_iff; symmetry; exact Hb). congruence. }
    destruct (round64_pos_form b Hb') as [Rb Fb]. rewrite Rb in Hr.
    set (m := round_even (b * 2 ^ (- fexp b))) in *.
    assert (Hm0 : (0 <= m)%Z).
    { pose proof (round_even_bounds (b * 2 ^ (- fexp b))) as [H _].
      assert (0 <= b * 2 ^ (- fexp b)) by (apply Qmult_le_0_compat; [exact Hb | apply Qlt_le_weak, pw_pos]).
      pose proof (Qfloor_resp_le 0 _ H0) as H1. change (Qfloor 0) with 0%Z in H1. fold m in H. lia. }
    assert (Hm1 : (m <= 2 ^ 53)%Z).
    { unfold m. rewrite <- (round_even_Z (2 ^ 53)). apply round_even_mono.
      apply Qlt_le_weak. apply scaled_lt; [exact Hb' | lia]. }
    assert (Hbk : b * 2 ^ k == inject_Z m * 2 ^ (fexp b + k)).
    { rewrite <- Hr at 1. rewrite pw_plus. ring. }
    assert (Hnn : 0 <= b * 2 ^ k) by (apply Qmult_le_0_compat; [exact Hb | apply Qlt_le_weak, pw_pos]).
    rewrite (round64_comp _ _ Hnn Hbk). rewrite Hbk.
    destruct (Z.eq_dec m (2 ^ 53)) as [Hm|Hm].
    + assert (H1 : inject_Z m * 2 ^ (fexp b + k) == inject_Z 1 * 2 ^ (fexp b + k + 53)).
      { rewrite Hm, pw_Z by lia. rewrite !pw_plus. ring. }
      assert (Hnn1 : 0 <= inject_Z m * 2 ^ (fexp b + k)) by (rewrite <- Hbk; exact Hnn).
      rewrite (round64_comp _ _ Hnn1 H1), H1. apply round64_exact; lia.
    + apply round64_exact; lia.
Qed.

Lemma round64_1000 : round64 1000 == 1000.
Proof. apply Qeq_bool_iff. vm_compute. reflexivity. Qed.

Lemma delay_bounds (b r : Q) (k : nat) :
  0 <= b -> round64 b == b -> 0 <= r < 1 ->
  b * pow2 k <= round64 (round64 (b * pow2 k) + round64 (r * 1000))
              <= round64 (b * pow2 k + 1000).
Proof.
  intros Hb Hr [Hr0 Hr1].
  assert (Hp : pow2 k == 2 ^ Z.of_nat k) by (apply pw_Z; lia).
  assert (Hbk0 : 0 <= b * pow2 k) by (rewrite Hp; apply Qmult_le_0_compat; [exact Hb | apply Qlt_le_weak, pw_pos]).
  assert (Ha : round64 (b * pow2 k) == b * pow2 k).
  { rewrite (round64_comp _ _ Hbk0 (Qmult_comp b b (Qeq_refl b) _ _ Hp)).
    rewrite round64_double_scale; [rewrite Hp; reflexivity | exact Hb | exact Hr | lia]. }
  assert (Hj0 : 0 <= round64 (r * 1000)) by (apply round64_nonneg; lra).
  assert (Hj1 : round64 (r * 1000) <= 1000).
  { rewrite <- round64_1000 at 2. apply round64_mono; lra. }
  set (a := round64 (b * pow2 k)) in *. set (j := round64 (r * 1000)) in *.
  split.
  - assert (Haa : round64 a == a) by (apply (round64_comp a (b * pow2 k)); [lra | exact Ha]).
    apply Qle_trans with (round64 a); [rewrite Haa, Ha; apply Qle_refl|].
    apply round64_mono; lra.
  - apply Qle_trans with (round64 (a + 1000)).
    + apply round64_mono; lra.
    + rewrite (round64_comp (a + 1000) (b * pow2 k + 1000)) by (lra || (rewrite Ha; reflexivity)).
      apply Qle_refl.
Qed.

End Binary64.

(** ** Lemmas on [withRetry] *)



Lemma sleeps_app (t1 t2 : list event) : sleeps (t1 ++ t2) = sleeps t1 ++ sleeps t2.
Proof. induction t1 as [|[] t1 IH]; simpl; try rewrite IH; reflexivity. Qed.

Lemma timeline_app (t1 t2 : list event) : timeline (t1 ++ t2) = timeline t1 ++ timeline t2.
Proof. unfold timeline. apply filter_app. Qed.



Section ProbeRun.
Context {A : Type}.
Variables (rnd : nat -> Q) (script : nat -> result err A) (m n : nat) (b : Q) (v : A).
(** The operation fails [n] consecutive times with retryable errors, then succeeds. *)
Hypothesis Hfail : forall i, i < n -> exists e, script i = Err e /\ isRetryable e = true.
Hypothesis Hok : script n = Ok v.

End ProbeRun.



(** ** Claims on [withRetry] *)

(** C1 (counterexample): with [maxRetries = 0] the loop body never runs: the
    operation is attempted zero times and the call fails with
    ["Max retries reached"], not with a failure of the operation. *)
Lemma C1_zero_retries_never_attempts :
  let '(r, tr, p) := probe_retry (fun _ => 0%Q) (fun _ => Err timeout_err : result err nat)
                       0 1000 p0 in
  attempts tr = 0 /\ p_calls p = 0 /\ r = Err max_retries_error /\ attempts tr <> 1.
Proof. vm_compute. repeat split; discriminate. Qed.

(** C1 (amended): for [maxRetries = 0], [withRetry] never invokes the operation,
    draws no jitter and does not sleep; it fails at once with
    ["Max retries reached"], leaving the state untouched. *)
Theorem withRetry_zero_fails_immediately {St A} (random : M St err Q)
    (sleep : Q -> M St err unit) (fn : M St err A) (baseDelay : Q) (s : St) :
  withRetry random sleep fn 0 baseDelay s = (Err max_retries_error, [], s).
Proof. reflexivity. Qed.


(** The two delays of that run, computed with the primitive binary64 floats
    of Rocq ([x] is the double [1 - 2^-52]), agree with [round64]. *)
Lemma delays_binary64 :
  let x := 0x1.ffffffffffffep-1%float in
  option_map Qred (float_Q x) = Some (Qred (1 - (1 # 4503599627370496)))
  /\ option_map Qred (float_Q (1000 * 1 + x * 1000)%float)
     = Some (Qred (fadd (fmul 1000 (pow2 0)) (fmul (1 - (1 # 4503599627370496)) 1000)))
  /\ option_map Qred (float_Q (1000 * 2 + x * 1000)%float)
     = Some (Qred (fadd (fmul 1000 (pow2 1)) (fmul (1 - (1 # 4503599627370496)) 1000))).
Proof. vm_compute. auto. Qed.


(** C4: an operation whose (first) failure is not on the allow-list
    [ECONNRESET | ETIMEDOUT | ECONNREFUSED] is invoked exactly once: the
    failure is rethrown as it is, with no jitter drawn, no sleep and no
    further attempt. *)
Theorem withRetry_non_retryable_once {St A} (random : M St err Q)
    (sleep : Q -> M St err unit) (fn : M St err A) (m : nat) (b : Q)
    (s s1 : St) (e : err) (tr1 : list event) :
  1 <= m ->
  fn s = (Err e, tr1, s1) ->
  isRetryable e = false ->
  withRetry random sleep fn m b s = (Err e, EvAttempt 0 :: tr1, s1).
Proof.
  intros Hm Hfn Hr. destruct m as [|m]; [lia|].
  unfold withRetry. cbn [retry_from]. unfold try_catch, bind, tell.
  cbn. rewrite Hfn, Hr, orb_true_r. cbn. rewrite app_nil_r. reflexivity.
Qed.

Lemma withRetry_non_retryable_once_witness :
  1 <= 3 /\ isRetryable (mkErr (Some "23505") "duplicate key") = false /\
  withRetry (probe_random (fun _ => 0%Q)) probe_sleep
    (probe_op (fun _ => Err (mkErr (Some "23505") "duplicate key") : result err nat))
    3 1000 p0
  = (Err (mkErr (Some "23505") "duplicate key"), [EvAttempt 0], mkProbe 1 0 0).
Proof.
  split; [lia|]. split; [reflexivity|].
  apply (withRetry_non_retryable_once (probe_random (fun _ => 0%Q)) probe_sleep
           (probe_op (fun _ => Err (mkErr (Some "23505") "duplicate key") : result err nat))
           3 1000 p0 (mkProbe 1 0 0) (mkErr (Some "23505") "duplicate key") []);
    [lia | reflexivity | reflexivity].
Defined.


(** ** An invariant of [retry_from]

    If every run of the wrapped operation emits only [Tev] events, leaves the
    state [Stable] when it fails and [Good] when it succeeds, and the jitter
    draw and the sleep leave the state [Stable], so does the whole loop. *)

Section RetryInvariant.
Context {St A : Type}.
Variables (random : M St err Q) (sleep : Q -> M St err unit) (fn : M St err A).
Variables (maxRetries : nat) (baseDelay : Q).
Variable Tev : event -> Prop.
Variable Stable : St -> St -> Prop.
Variable Good : St -> St -> A -> Prop.
Hypothesis Stable_refl : forall s, Stable s s.
Hypothesis Stable_trans : forall s1 s2 s3, Stable s1 s2 -> Stable s2 s3 -> Stable s1 s3.
Hypothesis Good_pre : forall s0 s1 s2 a, Stable s0 s1 -> Good s1 s2 a -> Good s0 s2 a.
Hypothesis fn_spec : forall s,
  let '(r, tr, s') := fn s in
  Forall Tev tr /\ match r with Ok a => Good s s' a | Err _ => Stable s s' end.
Hypothesis random_spec : forall s, let '(_, tr, s') := random s in tr = [] /\ Stable s s'.
Hypothesis sleep_spec : forall d s, let '(_, tr, s') := sleep d s in tr = [] /\ Stable s s'.

Definition retry_event (e : event) : Prop :=
  match e with
  | EvAttempt _ | EvRetryWarn _ _ _ | EvSleep _ => True
  | _ => Tev e
  end.

Lemma retry_from_invariant (fuel attempt : nat) (s : St) :
  let '(r, tr, s') := retry_from random sleep fn maxRetries baseDelay fuel attempt s in
  Forall retry_event tr /\ match r with Ok a => Good s s' a | Err _ => Stable s s' end.
Proof.
  revert attempt s. induction fuel as [|fuel IH]; intros attempt s.
  { cbn. split; [constructor | apply Stable_refl]. }
  cbn [retry_from]. unfold try_catch, bind, tell. cbn [app].
  pose proof (fn_spec s) as Hfn.
  destruct (fn s) as [[r tr] s1]. destruct Hfn as [Htr Hr].
  assert (Hev : Forall retry_event (EvAttempt attempt :: tr)).
  { constructor; [exact I|]. eapply Forall_impl; [|exact Htr].
    intros [] H; simpl; auto. }
  destruct r as [a|e]; [split; assumption|].
  destruct (Nat.eqb attempt (maxRetries - 1) || negb (isRetryable e)).
  { cbn. rewrite app_nil_r. split; assumption. }
  pose proof (random_spec s1) as Hrn.
  destruct (random s1) as [[r0 tr0] s2]. destruct Hrn as [-> Hs12].
  destruct r0 as [x|e0].
  2:{ cbn. rewrite !app_nil_r. split; [assumption | eapply Stable_trans; eassumption]. }
  pose proof (sleep_spec (fadd (fmul baseDelay (pow2 attempt)) (fmul x 1000)) s2) as Hsl.
  cbn [app].
  destruct (sleep _ s2) as [[r3 tr3] s3]. destruct Hsl as [-> Hs23].
  destruct r3 as [[]|e3].
  2:{ cbn. split.
      - rewrite app_comm_cons, Forall_app. split; [exact Hev|].
        constructor; [exact I|]. constructor; [exact I|]. constructor.
      - eapply Stable_trans; [eassumption|]. eapply Stable_trans; eassumption. }
  pose proof (IH (S attempt) s3) as Hih.
  destruct (retry_from _ _ _ _ _ fuel (S attempt) s3) as [[r4 tr4] s4].
  destruct Hih as [Htr4 Hr4].
  cbn. split.
  - rewrite app_comm_cons, Forall_app. split; [exact Hev|].
    constructor; [exact I|]. constructor; [exact I|]. exact Htr4.
  - assert (Hs13 : Stable s s3).
    { eapply Stable_trans; [eassumption|]. eapply Stable_trans; eassumption. }
    destruct r4 as [a4|e4].
    + eapply Good_pre; eassumption.
    + eapply Stable_trans; eassumption.
Qed.
End RetryInvariant.

(** ** Specifications of the breaker-wrapped persistence call *)

Lemma exec_sql_select_by_id (id : string) (tbl : list Row) :
  exec_sql (QSelectById id) tbl = Ok (filter (has_id id) tbl, tbl).
Proof. reflexivity. Qed.

Lemma exec_sql_delete (id : string) (tbl : list Row) :
  exec_sql (QDelete id) tbl = Ok ([], filter (fun r => negb (has_id id r)) tbl).
Proof. reflexivity. Qed.

Lemma exec_sql_select_all (status : option string) (tbl : list Row) :
  exec_sql (QSelectAll status) tbl = Err (undefined_column "createdat").
Proof. destruct status; reflexivity. Qed.

Lemma exec_sql_insert (id title : string) (description : option string) (status : string)
    (dueDate : option string) (createdAt updatedAt : Timestamp) (tbl : list Row) :
  exec_sql (QInsert id title description status dueDate createdAt updatedAt) tbl
  = Err (undefined_target "duedate").
Proof. reflexivity. Qed.

Lemma exec_sql_update (id : string) (title description status dueDate : option string)
    (now : Timestamp) (tbl : list Row) :
  exec_sql (QUpdate id title description status dueDate now) tbl
  = Err (undefined_column "duedate").
Proof. reflexivity. Qed.

Lemma exec_sql_complete (id : string) (now : Timestamp) (tbl : list Row) :
  exec_sql (QComplete id now) tbl = Err (undefined_target "completedat").
Proof. reflexivity. Qed.

Lemma analyze_tag_query (row : TagRow) :
  analyze (tag_query row) = Err (undefined_table "todotags").
Proof. reflexivity. Qed.

Lemma fire_db_exec_spec {R} (q : Query) (exec : list Row -> result err (list R * list Row))
    (w : World) :
  let '(r, tr, w') := fire q (db_exec q exec) w in
  Forall (query_event q) tr
  /\ match r with
     | Ok rows => exec (w_table w) = Ok (rows, w_table w')
     | Err _ => table_stable w w'
     end.
Proof.
  unfold fire.
  destruct (allow_request (w_clock w) (w_breaker w)) as [ph|].
  - unfold db_exec. destruct (w_faults w (w_queries w)) as [e|].
    + cbn. split; [|reflexivity].
      constructor; [left; reflexivity|]. constructor; [right; reflexivity|]. constructor.
    + destruct (exec (w_table w)) as [[rows tbl]|e] eqn:E; cbn;
        (split; [constructor; [left; reflexivity | constructor; [right; reflexivity | constructor]]
                |reflexivity]).
  - cbn. split; [|reflexivity]. constructor; [left; reflexivity|]. constructor.
Qed.

Lemma breaker_fire_spec (q : Query) (w : World) :
  let '(r, tr, w') := breaker_fire q w in
  Forall (query_event q) tr
  /\ match r with Ok rows => query_done q w w' rows | Err _ => table_stable w w' end.
Proof. exact (fire_db_exec_spec q (exec_sql q) w). Qed.

Lemma db_call_spec (q : Query) (w : World) :
  let '(r, tr, w') := db_call q w in
  Forall (retry_event (query_event q)) tr
  /\ match r with Ok rows => query_done q w w' rows | Err _ => table_stable w w' end.
Proof.
  unfold db_call, withRetry.
  apply (retry_from_invariant math_random sleep_ms (breaker_fire q) 3 1000
           (query_event q) table_stable (query_done q)).
  - intros s0. reflexivity.
  - unfold table_stable. intros s1 s2 s3 H12 H23. congruence.
  - unfold table_stable, query_done. intros s0 s1 s2 a H01 H. rewrite <- H01. exact H.
  - apply breaker_fire_spec.
  - intros s0. split; reflexivity.
  - intros d s0. split; reflexivity.
Qed.

Lemma publications_app (t1 t2 : list event) :
  publications (t1 ++ t2) = publications t1 ++ publications t2.
Proof. induction t1 as [|[] t1 IH]; cbn; try rewrite IH; reflexivity. Qed.

Lemma query_trace_no_publication (q : Query) (tr : list event) :
  Forall (retry_event (query_event q)) tr -> publications tr = [].
Proof.
  induction 1 as [|e tr He _ IH]; [reflexivity|].
  destruct e; cbn in *; try exact IH;
    destruct He as [He|He]; discriminate He.
Qed.

Lemma findById_spec (id : string) (w : World) :
  let '(r, tr, w') := findById id w in
  Forall (retry_event (query_event (QSelectById id))) tr
  /\ w_table w' = w_table w
  /\ match r with
     | Ok o => o = option_map mapRow (hd_error (filter (has_id id) (w_table w)))
     | Err _ => True
     end.
Proof.
  unfold findById, bind.
  pose proof (db_call_spec (QSelectById id) w) as H.
  destruct (db_call (QSelectById id) w) as [[r tr] w1].
  destruct H as [Htr Hr].
  destruct r as [rows|e].
  - unfold query_done in Hr. rewrite exec_sql_select_by_id in Hr.
    injection Hr as Hrows Htbl. symmetry in Hrows, Htbl.
    destruct rows as [|row rows]; cbn; rewrite app_nil_r;
      (split; [exact Htr | split; [exact Htbl|]]); rewrite <- Hrows; reflexivity.
  - cbn. split; [exact Htr | split; [exact Hr | exact I]].
Qed.

(** ** The [holds] calculus *)

Lemma holds_ret {St E A} (P : A -> Prop) (a : A) : P a -> holds (St:=St) (E:=E) P (ret a).
Proof. intros H s. exact H. Qed.

Lemma holds_throw {St E A} (P : A -> Prop) (e : E) : holds (St:=St) P (throw e).
Proof. intros s. exact I. Qed.

Lemma holds_true {St E A} (m : M St E A) : holds (fun _ => True) m.
Proof. intros s. unfold returned. destruct (m s) as [[[] ?] ?]; exact I. Qed.

Lemma holds_bind {St E A B} (P : A -> Prop) (Q : B -> Prop)
    (m : M St E A) (k : A -> M St E B) :
  holds P m -> (forall a, P a -> holds Q (k a)) -> holds Q (bind m k).
Proof.
  intros Hm Hk s. unfold bind. specialize (Hm s). unfold returned in *.
  destruct (m s) as [[[a|e] tr] s1]; [|exact I].
  specialize (Hk a Hm s1). destruct (k a s1) as [[[b|e] tr2] s2]; exact Hk.
Qed.

Lemma holds_findById (id : string) : holds opt_notes_alias (findById id).
Proof.
  unfold findById. apply (holds_bind (fun _ => True)); [apply holds_true|].
  intros [|row rows] _; apply holds_ret; [exact I | reflexivity].
Qed.

Lemma holds_map_first_row (rows : list Row) : holds notes_alias (map_first_row rows).
Proof.
  destruct rows as [|row rows]; [apply holds_throw | apply holds_ret; reflexivity].
Qed.

(** A step [x <- m ;; k] whose value is not constrained. *)
Ltac holds_skip := apply (holds_bind (fun _ => True)); [apply holds_true | intros ? _].

(** ** C10: the deprecated [notes] field *)

(** C10: every [Todo] returned by [findAll], [findById], [create], [update],
    [complete] and [delete] has [notes] equal to [description]: each one is
    built by [mapRow], which copies [row.description] into [notes]. *)
Theorem service_results_alias_notes (w : World) (status : option string) (id : string)
    (cinput : CreateTodoInput) (uinput : UpdateTodoInput) :
  returned (Forall notes_alias) (findAll status w)
  /\ returned opt_notes_alias (findById id w)
  /\ returned notes_alias (create cinput w)
  /\ returned opt_notes_alias (update id uinput w)
  /\ returned opt_notes_alias (complete id w)
  /\ returned opt_notes_alias (delete id w).
Proof.
  split; [|split; [|split; [|split; [|split]]]].
  - revert w. unfold findAll. holds_skip. apply holds_ret.
    apply Forall_forall. intros t Ht. apply in_map_iff in Ht.
    destruct Ht as [row [<- _]]. reflexivity.
  - apply holds_findById.
  - revert w. unfold create. do 3 holds_skip.
    apply (holds_bind notes_alias); [apply holds_map_first_row|].
    intros todo Ht. holds_skip. apply holds_ret. exact Ht.
  - revert w. unfold update. holds_skip. destruct a; [|apply holds_ret; exact I].
    do 2 holds_skip.
    apply (holds_bind notes_alias); [apply holds_map_first_row|].
    intros todo Ht. holds_skip. apply holds_ret. exact Ht.
  - revert w. unfold complete. holds_skip. destruct a; [|apply holds_ret; exact I].
    do 2 holds_skip.
    apply (holds_bind notes_alias); [apply holds_map_first_row|].
    intros todo Ht. holds_skip. apply holds_ret. exact Ht.
  - revert w. unfold delete. apply (holds_bind opt_notes_alias); [apply holds_findById|].
    intros [ex|] Hex; [|apply holds_ret; exact I].
    do 2 holds_skip. apply holds_ret. exact Hex.
Qed.

(** ** Claims on the resolvers *)

(** C6: [createTodo] with a title shorter than 3 code units returns a
    [ValidationError] whose fields contain the [title] entry with its
    message; the world is left as it was and the trace holds only the two
    log lines, so [todoService.create] is never invoked. *)
Theorem createTodo_short_title_validation (cid : string) (input : CreateTodoInput)
    (w : World) :
  String.length (c_title input) < 3 ->
  exists fields,
    createTodo cid input w
    = (Ok (CreateValidationError fields),
       [EvLog LInfo cid "Creating todo" None; EvLog LWarn cid "Validation failed" None], w)
    /\ In (mkFieldError "title" "Title must be at least 3 characters") fields.
Proof.
  intros Hlen. unfold createTodo, validateCreateInput, title_issues.
  destruct (Nat.ltb_spec (String.length (c_title input)) 3) as [_|H]; [|lia].
  destruct (Nat.ltb_spec 200 (String.length (c_title input))) as [H|_]; [lia|].
  eexists. split; [reflexivity|]. left. reflexivity.
Qed.

Lemma createTodo_short_title_validation_witness :
  String.length (c_title (mkCreateTodoInput "ab" None None)) < 3 /\
  exists fields,
    createTodo "req-1" (mkCreateTodoInput "ab" None None) (world [] fresh_breaker no_faults)
    = (Ok (CreateValidationError fields),
       [EvLog LInfo "req-1" "Creating todo" None; EvLog LWarn "req-1" "Validation failed" None],
       world [] fresh_breaker no_faults)
    /\ In (mkFieldError "title" "Title must be at least 3 characters") fields.
Proof.
  split; [cbn; lia|].
  apply createTodo_short_title_validation. cbn. lia.
Defined.

(** C2 (counterexample): a [createTodo] whose insert keeps timing out rejects
    with a [GraphQLError] whose [extensions.originalError] is the message of
    the underlying database error. *)
Lemma C2_createTodo_exposes_error_text :
  let '(r, tr, w') := createTodo "req-1" (mkCreateTodoInput "Buy milk" None None)
                         (world [] warm_breaker (always timeout_err)) in
  r = Err (mkGraphQLError "Failed to create todo" "INTERNAL_ERROR" "connect ETIMEDOUT")
  /\ match r with Err g => gql_originalError g = err_message timeout_err | Ok _ => False end.
Proof. vm_compute. split; reflexivity. Qed.

(** C2 (amended): when the service call of [createTodo] or [updateTodo]
    fails with [e], the resolver rejects with the fixed message, code
    [INTERNAL_ERROR] and [originalError = e.message]; the error has no
    correlation id field; the error-level log line carries the correlation
    id and [e.message]. Nothing else is added to the service's trace. *)
Theorem resolvers_technical_error_shape (cid id : string) (cinput : CreateTodoInput)
    (uinput : UpdateTodoInput) (w : World) :
  (validateCreateInput cinput = Valid cinput ->
   match create cinput w with
   | (Err e, tr, w1) =>
       createTodo cid cinput w
       = (Err (internal_error "Failed to create todo" e),
          EvLog LInfo cid "Creating todo" None
            :: tr ++ [EvLog LError cid "Failed to create todo" (Some (err_message e))], w1)
   | (Ok _, _, _) => True
   end)
  /\
  (validateUpdateInput uinput = Valid uinput ->
   match update id uinput w with
   | (Err e, tr, w1) =>
       updateTodo cid id uinput w
       = (Err (internal_error "Failed to update todo" e),
          EvLog LInfo cid "Updating todo" None
            :: tr ++ [EvLog LError cid "Failed to update todo" (Some (err_message e))], w1)
   | (Ok _, _, _) => True
   end).
Proof.
  split; intros Hv.
  - unfold createTodo, bind, tell, try_catch. rewrite Hv. cbn [app].
    destruct (create cinput w) as [[[t|e] tr] w1]; [exact I|].
    reflexivity.
  - unfold updateTodo, bind, tell, try_catch. rewrite Hv. cbn [app].
    destruct (update id uinput w) as [[[t|e] tr] w1]; [exact I|].
    reflexivity.
Qed.

Lemma resolvers_technical_error_shape_witness :
  validateCreateInput (mkCreateTodoInput "Buy milk" None None)
    = Valid (mkCreateTodoInput "Buy milk" None None)
  /\ match create (mkCreateTodoInput "Buy milk" None None)
               (world [] warm_breaker (always timeout_err)) with
     | (Err e, tr, w1) =>
         createTodo "req-1" (mkCreateTodoInput "Buy milk" None None)
                    (world [] warm_breaker (always timeout_err))
         = (Err (internal_error "Failed to create todo" e),
            EvLog LInfo "req-1" "Creating todo" None
              :: tr ++ [EvLog LError "req-1" "Failed to create todo" (Some (err_message e))], w1)
     | (Ok _, _, _) => True
     end
  /\ validateUpdateInput (mkUpdateTodoInput None None (Some "ARCHIVED") None)
     = Valid (mkUpdateTodoInput None None (Some "ARCHIVED") None)
  /\ match update "t1" (mkUpdateTodoInput None None (Some "ARCHIVED") None)
                 (world [row1] warm_breaker (always timeout_err)) with
     | (Err e, tr, w1) =>
         updateTodo "req-1" "t1" (mkUpdateTodoInput None None (Some "ARCHIVED") None)
                    (world [row1] warm_breaker (always timeout_err))
         = (Err (internal_error "Failed to update todo" e),
            EvLog LInfo "req-1" "Updating todo" None
              :: tr ++ [EvLog LError "req-1" "Failed to update todo" (Some (err_message e))], w1)
     | (Ok _, _, _) => True
     end.
Proof.
  split; [reflexivity|]. split.
  { apply (proj1 (resolvers_technical_error_shape "req-1" "t1"
             (mkCreateTodoInput "Buy milk" None None)
             (mkUpdateTodoInput None None (Some "ARCHIVED") None)
             (world [] warm_breaker (always timeout_err)))). reflexivity. }
  split; [reflexivity|].
  apply (proj2 (resolvers_technical_error_shape "req-1" "t1"
           (mkCreateTodoInput "Buy milk" None None)
           (mkUpdateTodoInput None None (Some "ARCHIVED") None)
           (world [row1] warm_breaker (always timeout_err)))). reflexivity.
Defined.

Lemma query_trace_fires (q q' : Query) (tr : list event) :
  Forall (retry_event (query_event q)) tr ->
  In (EvFire q') tr \/ In (EvDb q') tr -> q' = q.
Proof.
  rewrite Forall_forall. intros H [Hin|Hin]; apply H in Hin;
    cbn in Hin; unfold query_event in Hin;
    destruct Hin as [Hq|Hq]; try discriminate; injection Hq; auto.
Qed.




Lemma existsb_filter_nonempty {A} (f : A -> bool) (l : list A) :
  existsb f l = true -> exists x l', filter f l = x :: l' /\ f x = true.
Proof.
  induction l as [|a l IH]; cbn; [discriminate|].
  destruct (f a) eqn:Ha; cbn; [intros _; exists a, (filter f l); auto | apply IH].
Qed.

(** ** Claims on [TodoService.complete] and [TodoService.delete] *)

(** C8 (code bug): [complete] never returns a completed todo. Its [UPDATE]
    assigns the columns [completedAt] and [updatedAt], which PostgreSQL folds
    to [completedat] and [updatedat]; [todos] has [completed_at] and
    [updated_at], so the statement always fails with [42703], which is not
    retried. On the row [t1] of a working database the call rejects with
    [column "completedat" of relation "todos" does not exist], publishes no
    notification and leaves the table as it was; from any world, no call of
    [complete] returns a todo. *)
Theorem complete_existing_fails_on_schema :
  (let '(r, tr, w') := complete "t1" (world [row1] fresh_breaker no_faults) in
   r = Err (undefined_target "completedat") /\ publications tr = [] /\ w_table w' = [row1])
  /\ forall id w t, fst (fst (complete id w)) <> Ok (Some t).
Proof.
  split; [vm_compute; auto|].
  intros id w t. unfold complete, bind at 1.
  destruct (findById id w) as [[[o|e] tr] w1]; [|discriminate].
  destruct o as [ex|]; unfold bind; cbn -[db_call]; [|discriminate].
  pose proof (db_call_spec (QComplete id (Qfloor (w_clock w1))) w1) as Hd.
  destruct (db_call (QComplete id (Qfloor (w_clock w1))) w1) as [[[rows2|e2] tr2] w2];
    [|discriminate].
  destruct Hd as [_ Hq]. unfold query_done in Hq.
  rewrite exec_sql_complete in Hq. discriminate.
Qed.

Lemma filter_has_id_deleted (id : string) (tbl : list Row) :
  filter (has_id id) (filter (fun r => negb (has_id id r)) tbl) = [].
Proof.
  induction tbl as [|r tbl IH]; [reflexivity|].
  cbn. destruct (has_id id r) eqn:H; cbn; [exact IH|]. rewrite H. exact IH.
Qed.

(** C9: [delete] on an id with a row returns, unless a statement fails, the
    snapshot [mapRow row] read before the [DELETE]: the trace is the read,
    then the [DELETE], then exactly one [deleted] notification carrying the
    pre-deletion id and title, and the row is gone from the table afterwards.
    On an id with no row it returns [null] (or a technical error when the
    read fails), fires no [DELETE] and publishes nothing. *)
Theorem delete_returns_snapshot (id : string) (w : World) :
  let '(r, tr, w') := delete id w in
  match filter (has_id id) (w_table w) with
  | row :: _ =>
      match r with
      | Ok (Some t) =>
          t = mapRow row
          /\ filter (has_id id) (w_table w') = []
          /\ (exists tr1 tr2,
                tr = tr1 ++ tr2 ++ [EvPublish Deleted (r_id row) (r_title row)]
                /\ Forall (retry_event (query_event (QSelectById id))) tr1
                /\ Forall (retry_event (query_event (QDelete id))) tr2)
          /\ publications tr = [(Deleted, r_id row, r_title row)]
      | Ok None => False
      | Err _ => True
      end
  | [] =>
      match r with Ok o => o = None | Err _ => True end
      /\ (forall q, In (EvFire q) tr \/ In (EvDb q) tr -> q = QSelectById id)
      /\ publications tr = []
  end.
Proof.
  unfold delete, bind at 1.
  pose proof (findById_spec id w) as Hf.
  destruct (findById id w) as [[[o|e] tr] w1]; destruct Hf as [Htr [Htbl Ho]];
    destruct (filter (has_id id) (w_table w)) as [|row rows] eqn:Hfil.
  - cbn in Ho. subst o. cbn. rewrite app_nil_r.
    split; [reflexivity|]. split.
    + intros q Hq. exact (query_trace_fires _ _ tr Htr Hq).
    + exact (query_trace_no_publication _ _ Htr).
  - cbn in Ho. subst o. unfold bind. cbn -[db_call].
    pose proof (db_call_spec (QDelete id) w1) as Hd.
    destruct (db_call (QDelete id) w1) as [[[rows2|e2] tr2] w2]; [|exact I].
    destruct Hd as [Htr2 Hq]. unfold query_done in Hq.
    rewrite Htbl, exec_sql_delete in Hq. injection Hq as _ Htbl2. symmetry in Htbl2.
    cbn. split; [reflexivity|]. split.
    + rewrite Htbl2. apply filter_has_id_deleted.
    + split.
      * exists tr, tr2. auto.
      * apply query_trace_no_publication in Htr, Htr2.
        rewrite !publications_app, Htr, Htr2. reflexivity.
  - cbn. split; [exact I|]. split.
    + intros q Hq. exact (query_trace_fires _ _ tr Htr Hq).
    + exact (query_trace_no_publication _ _ Htr).
  - exact I.
Qed.

(** ** Retry outside, breaker inside *)

Ltac count_simpl :=
  unfold attempts, fires, db_calls in *;
  repeat rewrite ?filter_app, ?length_app in *;
  cbn [filter List.length] in *.

Section RetryCount.
Context {St A : Type}.
Variables (random : M St err Q) (sleep : Q -> M St err unit) (fn : M St err A).
Variables (maxRetries : nat) (baseDelay : Q).
Hypothesis fn_count : forall s, let '(_, tr, _) := fn s in
  fires tr = 1 /\ attempts tr = 0 /\ db_calls tr <= 1.
Hypothesis random_silent : forall s, let '(_, tr, _) := random s in tr = [].
Hypothesis sleep_silent : forall d s, let '(_, tr, _) := sleep d s in tr = [].

Lemma retry_from_counts (fuel attempt : nat) (s : St) :
  let '(_, tr, _) := retry_from random sleep fn maxRetries baseDelay fuel attempt s in
  fires tr = attempts tr /\ attempts tr <= fuel /\ db_calls tr <= fires tr.
Proof.
  revert attempt s. induction fuel as [|fuel IH]; intros attempt s.
  { cbn. lia. }
  cbn [retry_from]. unfold try_catch, bind, tell. cbn [app].
  pose proof (fn_count s) as Hfn.
  destruct (fn s) as [[r tr] s1]. destruct Hfn as (Hf & Ha & Hd).
  destruct r as [a|e].
  { count_simpl. lia. }
  destruct (Nat.eqb attempt (maxRetries - 1) || negb (isRetryable e)).
  { cbn. rewrite app_nil_r. count_simpl. lia. }
  pose proof (random_silent s1) as Hrn.
  destruct (random s1) as [[r0 tr0] s2]. subst tr0.
  destruct r0 as [x|e0].
  2:{ cbn. rewrite !app_nil_r. count_simpl. lia. }
  pose proof (sleep_silent (fadd (fmul baseDelay (pow2 attempt)) (fmul x 1000)) s2) as Hsl.
  cbn [app].
  destruct (sleep _ s2) as [[r3 tr3] s3]. subst tr3.
  destruct r3 as [[]|e3].
  2:{ cbn. count_simpl. lia. }
  pose proof (IH (S attempt) s3) as Hih.
  destruct (retry_from _ _ _ _ _ fuel (S attempt) s3) as [[r4 tr4] s4].
  cbn. count_simpl. lia.
Qed.
End RetryCount.

Lemma fire_db_exec_counts {R} (q : Query) (exec : list Row -> result err (list R * list Row))
    (w : World) :
  let '(_, tr, _) := fire q (db_exec q exec) w in
  fires tr = 1 /\ attempts tr = 0 /\ db_calls tr <= 1.
Proof.
  unfold fire, db_exec.
  destruct (allow_request (w_clock w) (w_breaker w)) as [ph|]; [|cbn; lia].
  destruct (w_faults w (w_queries w)); [cbn; lia|].
  destruct (exec (w_table w)) as [[rows tbl]|e]; cbn; lia.
Qed.

Lemma fire_db_exec_timeouts {R} (q : Query) (exec : list Row -> result err (list R * list Row))
    (w : World) :
  timeouts_from w ->
  let '(r, tr, w') := fire q (db_exec q exec) w in
  timeouts_from w' /\
  ((r = Err open_circuit_error /\ tr = [EvFire q])
   \/ (r = Err timeout_err /\ tr = [EvFire q; EvDb q])).
Proof.
  intros H. unfold fire, db_exec.
  destruct (allow_request (w_clock w) (w_breaker w)) as [ph|].
  - rewrite (H (w_queries w) (le_n _)). split; [|right; auto].
    intros i Hi. cbn in Hi |- *. apply H. lia.
  - split; [exact H | left; auto].
Qed.

Lemma retry_timeouts {R} (q : Query) (exec : list Row -> result err (list R * list Row))
    (fuel attempt : nat) (w : World) :
  timeouts_from w -> attempt + fuel = 3 -> 1 <= fuel ->
  let '(r, tr, _) :=
    retry_from math_random sleep_ms (fire q (db_exec q exec)) 3 1000 fuel attempt w in
  (db_calls tr = fires tr -> fires tr = fuel /\ r = Err timeout_err) /\
  (db_calls tr < fires tr -> r = Err open_circuit_error /\ db_calls tr < fuel).
Proof.
  revert attempt w. induction fuel as [|fuel IH]; intros attempt w Hw Hsum Hf; [lia|].
  cbn [retry_from]. unfold try_catch, bind, tell. cbn [app].
  pose proof (fire_db_exec_timeouts q exec w Hw) as Hb.
  destruct (fire q (db_exec q exec) w) as [[r tr] w1].
  destruct Hb as [Hw1 [[-> ->]|[-> ->]]].
  - cbn. rewrite orb_true_r. cbn. split; intros; [lia | split; [reflexivity | lia]].
  - destruct fuel as [|fuel].
    + replace attempt with 2 by lia. cbn.
      split; intros; [split; reflexivity | lia].
    + assert (Hne : Nat.eqb attempt (3 - 1) = false) by (apply Nat.eqb_neq; lia).
      rewrite Hne. unfold math_random, sleep_ms. cbn -[retry_from].
      match goal with
      | |- context [retry_from ?a ?b ?c ?d ?e ?f ?g ?s] =>
          assert (Hs : timeouts_from s) by (intros i Hi; apply Hw1; exact Hi);
          assert (Hih : let '(r, tr, _) := retry_from a b c d e f g s in
            (db_calls tr = fires tr -> fires tr = S fuel /\ r = Err timeout_err) /\
            (db_calls tr < fires tr -> r = Err open_circuit_error /\ db_calls tr < S fuel))
            by exact (IH g s Hs ltac:(lia) ltac:(lia));
          destruct (retry_from a b c d e f g s) as [[r4 tr4] w4]
      end.
      count_simpl. destruct Hih as [H1 H2].
      split; intros Hc.
      * destruct (H1 ltac:(lia)) as [-> ->]. split; [lia|reflexivity].
      * destruct (H2 ltac:(lia)) as [-> Hlt]. split; [reflexivity|lia].
Qed.

Lemma record_first_failure (now : Q) (br : Breaker) :
  filter (in_window now) (b_window br) = [] ->
  record Closed now false br = mkBreaker (Open now) ((now, false) :: b_window br).
Proof.
  intros H. unfold record, threshold_reached. cbn [filter].
  assert (Hin : in_window now (now, false) = true).
  { unfold in_window. cbn [fst]. destruct (Qle_bool rollingCountTimeout (now - now)) eqn:E;
      [|reflexivity].
    apply Qle_bool_iff in E. unfold rollingCountTimeout in E. lra. }
  rewrite Hin, H. reflexivity.
Qed.

Lemma allow_request_open_soon (t d : Q) (br : Breaker) :
  b_phase br = Open t -> (d < 30000)%Q -> allow_request (t + d) br = None.
Proof.
  intros Hph Hd. unfold allow_request. rewrite Hph.
  destruct (Qle_bool resetTimeout (t + d - t)) eqn:E; [|reflexivity].
  apply Qle_bool_iff in E. unfold resetTimeout in E. lra.
Qed.

Lemma first_delay_small (x : Q) :
  (0 <= x < 1)%Q -> (fadd (fmul 1000 (pow2 0)) (fmul x 1000) < 30000)%Q.
Proof.
  intros Hx. unfold fadd, fmul.
  pose proof (delay_bounds 1000 x 0 ltac:(lra) round64_1000 Hx) as [_ H].
  assert (H2 : (round64 (1000 * pow2 0 + 1000) <= 2000)%Q)
    by (apply Qle_bool_iff; vm_compute; reflexivity).
  lra.
Qed.

(** In a fresh breaker (closed, nothing recorded in the rolling window), a
    call whose database calls all time out makes two breaker invocations:
    the first timeout opens the breaker, and the retry after the first delay
    (at most 2000 ms, less than [resetTimeout]) fails fast. *)
Lemma fire_retry_fresh {R} (q : Query) (exec : list Row -> result err (list R * list Row))
    (w : World) :
  timeouts_from w -> b_phase (w_breaker w) = Closed ->
  filter (in_window (w_clock w)) (b_window (w_breaker w)) = [] ->
  (forall j, (0 <= w_random w j < 1)%Q) ->
  let '(r, tr, _) := withRetry math_random sleep_ms (fire q (db_exec q exec)) 3 1000 w in
  fires tr = 2 /\ db_calls tr = 1 /\ r = Err open_circuit_error.
Proof.
  intros Hw Hph Hwin Hrnd.
  unfold withRetry. cbn [retry_from]. unfold try_catch, bind, tell. cbn [app].
  unfold fire at 1. unfold allow_request at 1. rewrite Hph.
  unfold db_exec at 1. rewrite (Hw (w_queries w) (le_n _)).
  cbn [isRetryable err_code timeout_err Nat.eqb Nat.sub orb negb String.eqb].
  unfold math_random, sleep_ms. cbn -[retry_from fire record fadd fmul pow2].
  rewrite record_first_failure by exact Hwin.
  cbn [retry_from]. unfold try_catch, bind, tell. cbn [app].
  unfold fire at 1. cbn [w_clock w_breaker set_breaker advance_clock count_draw count_query].
  rewrite allow_request_open_soon by (reflexivity || apply first_delay_small, Hrnd).
  cbn -[fadd fmul pow2 fire]. auto.
Qed.

(** C5 counterexample: in a fresh service, whose breaker has recorded
    nothing yet, a [findById] whose database calls all time out makes only
    two breaker invocations and a single database call: the first timeout
    opens the breaker (one failure out of one is at least 50%), so the retry
    fails fast with the non-retryable open-circuit error. *)
Lemma C5_fresh_breaker_fails_fast :
  let '(r, tr, _) := findById "t1" (world [row1] fresh_breaker (always timeout_err)) in
  fires tr = 2 /\ db_calls tr = 1 /\ r = Err open_circuit_error.
Proof. vm_compute. auto. Qed.

(** What [withRetry(() => dbBreaker.fire(...))] with the defaults shows, run
    from [w]: the counts of attempts, breaker invocations and database calls,
    and how it ends when every database call from [w] on times out. *)
Definition retry_over_breaker {R} (w : World) (run : result err R * list event * World) : Prop :=
  let '(r, tr, _) := run in
  fires tr = attempts tr /\ attempts tr <= 3 /\ db_calls tr <= fires tr /\
  (timeouts_from w ->
     (db_calls tr = fires tr -> fires tr = 3 /\ r = Err timeout_err) /\
     (db_calls tr < fires tr -> r = Err open_circuit_error /\ db_calls tr < 3) /\
     (b_phase (w_breaker w) = Closed ->
      filter (in_window (w_clock w)) (b_window (w_breaker w)) = [] ->
      (forall j, (0 <= w_random w j < 1)%Q) ->
      fires tr = 2 /\ db_calls tr = 1 /\ r = Err open_circuit_error)).

Lemma retry_over_breaker_fire {R} (q : Query) (exec : list Row -> result err (list R * list Row))
    (w : World) :
  retry_over_breaker w (withRetry math_random sleep_ms (fire q (db_exec q exec)) 3 1000 w).
Proof.
  unfold retry_over_breaker.
  pose proof (fire_retry_fresh q exec w) as Hfr.
  unfold withRetry in *.
  pose proof (retry_from_counts math_random sleep_ms (fire q (db_exec q exec)) 3 1000
                (fire_db_exec_counts q exec) (fun s => eq_refl) (fun d s => eq_refl) 3 0 w) as Hc.
  pose proof (retry_timeouts q exec 3 0 w) as Ht.
  destruct (retry_from _ _ _ _ _ 3 0 w) as [[r tr] w'].
  destruct Hc as (H1 & H2 & H3).
  split; [exact H1|]. split; [exact H2|]. split; [exact H3|].
  intros Hw. destruct (Ht Hw eq_refl (le_n_S _ _ (Nat.le_0_l 2))) as [Ha Hb].
  split; [exact Ha|]. split; [exact Hb|].
  intros Hph Hwin Hrnd. exact (Hfr Hw Hph Hwin Hrnd).
Qed.

(** C5 (amended): every persistence call of the service, the [todos]
    statements as well as the tag [INSERT] of [addTag], is
    [withRetry(() => dbBreaker.fire(...))]: each retry attempt fires the
    breaker exactly once, so there are as many breaker invocations as
    attempts, at most 3, and at most one database call per invocation. When
    every database call from now on times out, either every invocation reached
    the database, and then there were exactly 3 and the timeout surfaces, or
    the open breaker failed one fast, and then the open-circuit error surfaces
    after fewer than 3 recorded outcomes. From a fresh breaker (closed, with
    no outcome in the rolling window) the call ends after 2 invocations and 1
    recorded outcome, with the open-circuit error. *)
Theorem db_call_retry_outside_breaker (q : Query) (row : TagRow) (w : World) :
  retry_over_breaker w (db_call q w)
  /\ retry_over_breaker w (withRetry math_random sleep_ms (tag_fire db_insert_tag row) 3 1000 w).
Proof.
  split.
  - exact (retry_over_breaker_fire q (exec_sql q) w).
  - exact (retry_over_breaker_fire (tag_query row) (exec_tag_sql row) w).
Qed.

(** * Further properties of the code *)

(** ** The snake_case to camelCase rewrite *)

Lemma to_upper_not_lower (c : ascii) : is_lower c = true -> is_lower (to_upper c) = false.
Proof. destruct c as [[] [] [] [] [] [] [] []]; vm_compute; congruence. Qed.

Lemma to_upper_not_underscore (c : ascii) :
  is_lower c = true -> Ascii.eqb (to_upper c) "_"%char = false.
Proof. destruct c as [[] [] [] [] [] [] [] []]; vm_compute; congruence. Qed.

Definition starts_lower (s : string) : bool :=
  match s with String c _ => is_lower c | EmptyString => false end.

Lemma snake_to_camel_head (s : string) :
  starts_lower s = false -> starts_lower (snake_to_camel s) = false.
Proof.
  destruct s as [|c rest]; [trivial|]. cbn [starts_lower]. intros Hc.
  cbn [snake_to_camel]. destruct (Ascii.eqb c "_"%char).
  - destruct rest as [|l rest']; [exact Hc|].
    destruct (is_lower l) eqn:El; [apply to_upper_not_lower; exact El | exact Hc].
  - exact Hc.
Qed.

Lemma snake_to_camel_clean_aux (n : nat) (s : string) :
  String.length s <= n -> has_snake (snake_to_camel s) = false.
Proof.
  revert s. induction n as [|n IH]; intros s Hlen.
  { destruct s; [reflexivity | cbn in Hlen; lia]. }
  destruct s as [|c rest]; [reflexivity|]. cbn in Hlen.
  cbn [snake_to_camel]. destruct (Ascii.eqb c "_"%char) eqn:Ec.
  - destruct rest as [|l rest'].
    + cbn [has_snake]. rewrite Ec. reflexivity.
    + cbn in Hlen. destruct (is_lower l) eqn:El.
      * cbn [has_snake]. rewrite (to_upper_not_underscore l El). cbn [andb orb].
        apply IH. lia.
      * cbn [has_snake]. rewrite Ec. cbn [andb].
        assert (H1 : has_snake (snake_to_camel (String l rest')) = false)
          by (apply IH; cbn; lia).
        assert (Hh : starts_lower (snake_to_camel (String l rest')) = false)
          by (apply snake_to_camel_head; exact El).
        revert H1 Hh. destruct (snake_to_camel (String l rest')) as [|l' r'].
        -- intros H1 _. exact H1.
        -- intros H1 Hh. cbn [starts_lower] in Hh. rewrite Hh. exact H1.
  - cbn [has_snake]. rewrite Ec. cbn [andb orb]. apply IH. lia.
Qed.

Lemma snake_to_camel_id (s : string) : has_snake s = false -> snake_to_camel s = s.
Proof.
  induction s as [|c rest IH]; [reflexivity|].
  cbn [has_snake]. intros H. apply orb_false_elim in H. destruct H as [H1 H2].
  cbn [snake_to_camel]. destruct (Ascii.eqb c "_"%char) eqn:Ec.
  - destruct rest as [|l rest']; [reflexivity|].
    cbn [andb] in H1. rewrite H1. rewrite (IH H2). reflexivity.
  - rewrite (IH H2). reflexivity.
Qed.

(** The rewrite leaves no [_] followed by a lowercase letter, so running it
    a second time changes nothing. *)
Theorem snake_to_camel_normal_form (s : string) :
  has_snake (snake_to_camel s) = false
  /\ snake_to_camel (snake_to_camel s) = snake_to_camel s.
Proof.
  pose proof (snake_to_camel_clean_aux (String.length s) s (le_n _)) as H.
  split; [exact H | exact (snake_to_camel_id _ H)].
Qed.

(** ** [initDatabase] *)

(** [initDatabase] issues its three statements in order and stops at the
    first one that fails: it logs the failure and rejects with that very
    error, and issues none of the statements after it. *)
Theorem initDatabase_stops_at_first_failure (w : World) :
  let '(r, tr, w') := initDatabase w in
  w_table w' = w_table w /\ w_breaker w' = w_breaker w
  /\ match w_faults w (w_queries w) with
     | Some e =>
         r = Err e /\ w_queries w' = S (w_queries w)
         /\ tr = [EvLog LError "" "Database initialization failed" (Some (err_message e))]
     | None =>
         match w_faults w (S (w_queries w)) with
         | Some e =>
             r = Err e /\ w_queries w' = S (S (w_queries w))
             /\ tr = [EvLog LError "" "Database initialization failed" (Some (err_message e))]
         | None =>
             match w_faults w (S (S (w_queries w))) with
             | Some e =>
                 r = Err e /\ w_queries w' = S (S (S (w_queries w)))
                 /\ tr = [EvLog LError "" "Database initialization failed" (Some (err_message e))]
             | None =>
                 r = Ok tt /\ w_queries w' = S (S (S (w_queries w)))
                 /\ tr = [EvLog LInfo "" "Database initialized successfully" None]
             end
         end
     end.
Proof.
  unfold initDatabase, try_catch, bind, tell, throw, pool_query.
  destruct (w_faults w (w_queries w)) as [e1|]; [cbn; auto|].
  cbn. destruct (w_faults w (S (w_queries w))) as [e2|]; [cbn; auto|].
  cbn. destruct (w_faults w (S (S (w_queries w)))) as [e3|]; cbn; auto.
Qed.

(** ** The readiness check *)

(** [readinessCheck] always answers: [200] / [ready] with the database check
    [ok] when the pool's [SELECT 1] succeeds, [503] / [not ready] with the
    database check [fail] and the error's message otherwise. It issues exactly
    that one statement, on the pool itself: no retry, and the circuit breaker
    is neither consulted nor updated. *)
Theorem readinessCheck_reports_database (w : World) :
  let '(r, tr, w') := readinessCheck w in
  w_table w' = w_table w /\ w_breaker w' = w_breaker w
  /\ w_queries w' = S (w_queries w)
  /\ match w_faults w (w_queries w) with
     | None =>
         exists resp, r = Ok resp /\ res_code resp = 200 /\ res_status resp = "ready"
         /\ hc_status (res_database resp) = "ok"
     | Some e =>
         exists resp, r = Ok resp /\ res_code resp = 503 /\ res_status resp = "not ready"
         /\ res_database resp = mkHealthCheck "fail" None (Some (err_message e))
         /\ In (EvLog LError "" "Database health check failed" (Some (err_message e))) tr
     end.
Proof.
  unfold readinessCheck, checkDatabase, try_catch, bind, tell, ret, pool_query, date_now.
  destruct (w_faults w (w_queries w)) as [e|]; cbn.
  - split; [reflexivity|]. split; [reflexivity|]. split; [reflexivity|].
    eexists. split; [reflexivity|]. cbn. split; [reflexivity|]. split; [reflexivity|].
    split; [reflexivity|]. right. left. reflexivity.
  - split; [reflexivity|]. split; [reflexivity|]. split; [reflexivity|].
    eexists. split; [reflexivity|]. cbn. auto.
Qed.

(** ** The event bus *)

Lemma map_get_set_same {St} (k : string) (v : list (Handler St)) (m : HandlerMap St) :
  map_get k (map_set k v m) = Some v.
Proof.
  induction m as [|[k' v'] m IH]; cbn; [rewrite String.eqb_refl; reflexivity|].
  destruct (String.eqb k' k) eqn:E; cbn; [rewrite String.eqb_refl; reflexivity|].
  rewrite E. exact IH.
Qed.

Lemma map_get_set_other {St} (k k' : string) (v : list (Handler St)) (m : HandlerMap St) :
  k <> k' -> map_get k' (map_set k v m) = map_get k' m.
Proof.
  intros Hne. induction m as [|[k0 v0] m IH]; cbn.
  - apply String.eqb_neq in Hne. rewrite Hne. reflexivity.
  - destruct (String.eqb k0 k) eqn:E; cbn.
    + apply String.eqb_eq in E. subst k0.
      apply String.eqb_neq in Hne. rewrite Hne. reflexivity.
    + destruct (String.eqb k0 k'); [reflexivity | exact IH].
Qed.

Lemma handlers_for_subscribe {St} (t t' : string) (h : Handler St) (m : HandlerMap St) :
  handlers_for t (eventBus_subscribe t' h m)
  = if String.eqb t' t then handlers_for t m ++ [h] else handlers_for t m.
Proof.
  unfold eventBus_subscribe, map_has, handlers_for.
  destruct (String.eqb t' t) eqn:Et.
  - apply String.eqb_eq in Et. subst t'.
    destruct (map_get t m) as [hs|] eqn:E.
    + rewrite E, map_get_set_same. reflexivity.
    + rewrite map_get_set_same, map_get_set_same. reflexivity.
  - apply String.eqb_neq in Et.
    destruct (map_get t' m) as [hs|] eqn:E.
    + rewrite E, (map_get_set_other _ _ _ _ Et). reflexivity.
    + rewrite map_get_set_same, (map_get_set_other _ _ _ _ Et),
        (map_get_set_other _ _ _ _ Et). reflexivity.
Qed.

Lemma handlers_for_subscriptions {St} (subs : list (string * Handler St))
    (m : HandlerMap St) (t : string) :
  handlers_for t (fold_left (fun acc p => eventBus_subscribe (fst p) (snd p) acc) subs m)
  = handlers_for t m ++ map snd (filter (fun p => String.eqb (fst p) t) subs).
Proof.
  revert m. induction subs as [|[t' h] subs IH]; intros m; cbn [fold_left filter map fst snd].
  - rewrite app_nil_r. reflexivity.
  - rewrite IH, handlers_for_subscribe.
    destruct (String.eqb t' t); cbn [map snd]; [rewrite <- app_assoc; reflexivity | reflexivity].
Qed.

(** After a sequence of [subscribe] calls, the handlers the bus holds for an
    event type are the ones subscribed to that type, in subscription order,
    after those it held before; other types' subscriptions do not affect it. *)
Theorem eventBus_subscriptions_by_type {St} (subs : list (string * Handler St))
    (m : HandlerMap St) (t : string) :
  handlers_for t (fold_left (fun acc p => eventBus_subscribe (fst p) (snd p) acc) subs m)
  = handlers_for t m ++ map snd (filter (fun p => String.eqb (fst p) t) subs).
Proof. apply handlers_for_subscriptions. Qed.

(** ** Statements the schema rejects *)

Lemma retry_fire_rejects {R} (q : Query) (exec : list Row -> result err (list R * list Row))
    (w : World) (rows : list R) :
  (forall tbl rows' tbl', exec tbl <> Ok (rows', tbl')) ->
  fst (fst (withRetry math_random sleep_ms (fire q (db_exec q exec)) 3 1000 w)) <> Ok rows.
Proof.
  intros Hx. unfold withRetry.
  assert (Hfn : forall s, let '(r, tr, s') := fire q (db_exec q exec) s in
            Forall (query_event q) tr
            /\ match r with Ok a => (fun _ _ _ => False) s s' a | Err _ => True end).
  { intros s. pose proof (fire_db_exec_spec q exec s) as H.
    destruct (fire q (db_exec q exec) s) as [[[a|e] tr] s'].
    - destruct H as [_ H]. exfalso. exact (Hx _ _ _ H).
    - destruct H as [H _]. split; [exact H | exact I]. }
  pose proof (retry_from_invariant math_random sleep_ms (fire q (db_exec q exec)) 3 1000
                (query_event q) (fun _ _ => True) (fun _ _ _ => False)
                (fun _ => I) (fun _ _ _ _ _ => I) (fun _ _ _ _ _ H => H) Hfn
                (fun s => conj eq_refl I) (fun d s => conj eq_refl I) 3 0 w) as H.
  destruct (retry_from _ _ _ _ _ 3 0 w) as [[[a|e] tr] w'].
  - destruct H as [_ []].
  - cbn. discriminate.
Qed.

Lemma db_call_rejects (q : Query) (w : World) (rows : list Row) :
  (forall tbl, exists e, exec_sql q tbl = Err e) -> fst (fst (db_call q w)) <> Ok rows.
Proof.
  intros Hq. apply (retry_fire_rejects q (exec_sql q) w rows).
  intros tbl rows' tbl' E. destruct (Hq tbl) as [e He]. congruence.
Qed.

Ltac db_call_rejected :=
  match goal with
  | |- context [db_call ?q ?s] =>
      let E := fresh "E" in
      pose proof (fun rows => db_call_rejects q s rows
                    ltac:(intros; eexists;
                          first [apply exec_sql_select_all | apply exec_sql_insert
                                | apply exec_sql_update | reflexivity])) as E;
      destruct (db_call q s) as [[[?rows|?e] ?tr] ?s'];
      [exfalso; exact (E _ eq_refl) | cbn; discriminate]
  end.

Lemma findAll_rejects (status : option string) (w : World) (ts : list Todo) :
  fst (fst (findAll status w)) <> Ok ts.
Proof. unfold findAll, bind. db_call_rejected. Qed.

Lemma create_rejects (input : CreateTodoInput) (w : World) (t : Todo) :
  fst (fst (create input w)) <> Ok t.
Proof. unfold create, bind. cbn -[db_call]. db_call_rejected. Qed.

Lemma update_rejects (id : string) (input : UpdateTodoInput) (w : World) (t : Todo) :
  fst (fst (update id input w)) <> Ok (Some t).
Proof.
  unfold update, bind at 1.
  destruct (findById id w) as [[[o|e] tr] w1]; [|discriminate].
  destruct o as [ex|]; unfold bind; cbn -[db_call]; [|discriminate].
  db_call_rejected.
Qed.

Lemma addTag_rejects (todoId tagName tagColor : string) (w : World) (t : Tag) :
  fst (fst (addTag db_insert_tag todoId tagName tagColor w)) <> Ok t.
Proof.
  unfold addTag, bind. cbn -[withRetry tag_fire].
  match goal with
  | |- context [withRetry ?a ?b (tag_fire db_insert_tag ?row) ?c ?d ?s] =>
      pose proof (fun rows => retry_fire_rejects (tag_query row) (exec_tag_sql row) s rows
                    ltac:(intros; discriminate)) as E;
      change (tag_fire db_insert_tag row) with (fire (tag_query row) (db_exec (tag_query row) (exec_tag_sql row)));
      destruct (withRetry a b (fire (tag_query row) (db_exec (tag_query row) (exec_tag_sql row))) c d s)
        as [[[rows|e] tr] s']
  end.
  - exfalso. exact (E _ eq_refl).
  - cbn. discriminate.
Qed.



(** X17: the statements of [findAll] ([ORDER BY createdAt]), [create]
    ([INSERT] of [dueDate], [createdAt], [updatedAt]), [update] ([SET
    dueDate], [updatedAt]) and [addTag] ([INSERT INTO todoTags]) name columns
    the [todos] table does not have (PostgreSQL folds unquoted names to lower
    case: [createdat], [duedate], while the schema has [created_at],
    [due_date]) or a relation [initDatabase] never creates ([todotags]). So no
    call of these four ever returns a result; on the seeded table with a
    working connection each rejects with the error of the first name
    PostgreSQL fails to resolve. *)
Theorem service_statements_rejected_by_schema :
  (forall status w ts, fst (fst (findAll status w)) <> Ok ts)
  /\ (forall input w t, fst (fst (create input w)) <> Ok t)
  /\ (forall id input w t, fst (fst (update id input w)) <> Ok (Some t))
  /\ (forall todoId tagName tagColor w t,
        fst (fst (addTag db_insert_tag todoId tagName tagColor w)) <> Ok t)
  /\ fst (fst (findAll None (world [row1] fresh_breaker no_faults)))
     = Err (undefined_column "createdat")
  /\ fst (fst (create (mkCreateTodoInput "Buy bread" None None)
                      (world [row1] fresh_breaker no_faults)))
     = Err (undefined_target "duedate")
  /\ fst (fst (update "t1" (mkUpdateTodoInput (Some "Buy oat milk") None None None)
                      (world [row1] fresh_breaker no_faults)))
     = Err (undefined_column "duedate")
  /\ fst (fst (addTag db_insert_tag "t1" "urgent" "#ff0000"
                      (world [row1] fresh_breaker no_faults)))
     = Err (undefined_table "todotags").
Proof.
  split; [exact findAll_rejects|]. split; [exact create_rejects|].
  split; [exact update_rejects|]. split; [exact addTag_rejects|].
  vm_compute. auto.
Qed.

Lemma findAll_read_only (status : option string) (w : World) :
  let '(r, tr, w') := findAll status w in
  w_table w' = w_table w /\ publications tr = [].
Proof.
  unfold findAll, bind.
  pose proof (db_call_spec (QSelectAll (truthy status)) w) as H.
  destruct (db_call (QSelectAll (truthy status)) w) as [[[rows|e] tr] w1];
    destruct H as [Htr Hr]; apply query_trace_no_publication in Htr.
  - unfold query_done in Hr. rewrite exec_sql_select_all in Hr. discriminate.
  - cbn. split; assumption.
Qed.

(** ** The remaining resolvers *)

(** The [todos] and [todo] queries never change the table and publish
    nothing; [todo] returns the first row with the id, or [null]; a failure
    reaches the client as a [GraphQLError] with the message
    ["Failed to fetch todos"] or ["Failed to fetch todo"] and the code
    [INTERNAL_ERROR]. *)
Theorem read_resolvers_read_only (cid : string) (status : option string) (id : string)
    (w : World) :
  (let '(r, tr, w') := todos cid status w in
   w_table w' = w_table w /\ publications tr = []
   /\ match r with
      | Ok _ => True
      | Err g => exists e, g = internal_error "Failed to fetch todos" e
      end)
  /\ (let '(r, tr, w') := todo cid id w in
      w_table w' = w_table w /\ publications tr = []
      /\ match r with
         | Ok o => o = option_map mapRow (hd_error (filter (has_id id) (w_table w)))
         | Err g => exists e, g = internal_error "Failed to fetch todo" e
         end).
Proof.
  split.
  - unfold todos, try_catch, bind, tell. cbn [app].
    pose proof (findAll_read_only status w) as H.
    destruct (findAll status w) as [[[ts|e] tr] w1]; destruct H as [Htbl Hpub]; cbn.
    + rewrite ?app_nil_r, publications_app, Hpub. repeat split; assumption.
    + rewrite publications_app, Hpub. split; [exact Htbl|]. split; [reflexivity|].
      exists e. reflexivity.
  - unfold todo, try_catch, bind, tell. cbn [app].
    pose proof (findById_spec id w) as H.
    destruct (findById id w) as [[[o|e] tr] w1]; destruct H as [Htr [Htbl Ho]];
      apply query_trace_no_publication in Htr.
    + destruct o as [t|]; cbn; rewrite ?app_nil_r, ?publications_app, Htr;
        repeat split; assumption.
    + cbn. rewrite publications_app, Htr. split; [exact Htbl|]. split; [reflexivity|].
      exists e. reflexivity.
Qed.

(** On an id with no row, [deleteTodo] and [completeTodo] return the
    [TodoNotFoundError] of that id (or an [INTERNAL_ERROR] [GraphQLError]
    when the lookup fails): the only statement run is the lookup, nothing is
    published and the table is unchanged. *)
Theorem missing_id_mutations_not_found (cid id : string) (w : World) :
  filter (has_id id) (w_table w) = [] ->
  (let '(r, tr, w') := deleteTodo cid id w in
   match r with
   | Ok res => res = DeleteTodoNotFound id
   | Err g => exists e, g = internal_error "Failed to delete todo" e
   end
   /\ (forall q, In (EvFire q) tr \/ In (EvDb q) tr -> q = QSelectById id)
   /\ publications tr = [] /\ w_table w' = w_table w)
  /\ (let '(r, tr, w') := completeTodo cid id w in
      match r with
      | Ok res => res = TodoNotFoundError id
      | Err g => exists e, g = internal_error "Failed to complete todo" e
      end
      /\ (forall q, In (EvFire q) tr \/ In (EvDb q) tr -> q = QSelectById id)
      /\ publications tr = [] /\ w_table w' = w_table w).
Proof.
  intros Hnone.
  pose proof (findById_spec id w) as Hf.
  split; [unfold deleteTodo, delete | unfold completeTodo, complete];
    unfold try_catch, bind, tell; cbn [app];
    destruct (findById id w) as [[[o|e] tr] w1];
    destruct Hf as [Htr [Htbl Ho]].
  1,3: rewrite Hnone in Ho; cbn in Ho; subst o; cbn; rewrite !app_nil_r;
       (split; [reflexivity|]); (split; [|split; [|exact Htbl]]);
       [ intros q Hq; apply (query_trace_fires _ _ tr Htr);
         destruct Hq as [[Hq|Hq]|[Hq|Hq]]; try discriminate; auto
       | apply query_trace_no_publication in Htr; exact Htr ].
  all: cbn; (split; [exists e; reflexivity|]); (split; [|split; [|exact Htbl]]);
       [ intros q Hq; apply (query_trace_fires _ _ tr Htr);
         destruct Hq as [[Hq|Hq]|[Hq|Hq]]; try discriminate;
         apply in_app_iff in Hq; destruct Hq as [Hq|[Hq|[]]]; auto; discriminate
       | apply query_trace_no_publication in Htr;
         rewrite publications_app, Htr; reflexivity ].
Qed.

Lemma missing_id_mutations_not_found_witness :
  filter (has_id "missing") (w_table (world [row1] fresh_breaker no_faults)) = []
  /\ (let '(r, tr, w') := deleteTodo "req-1" "missing" (world [row1] fresh_breaker no_faults) in
      match r with
      | Ok res => res = DeleteTodoNotFound "missing"
      | Err g => exists e, g = internal_error "Failed to delete todo" e
      end
      /\ (forall q, In (EvFire q) tr \/ In (EvDb q) tr -> q = QSelectById "missing")
      /\ publications tr = [] /\ w_table w' = w_table (world [row1] fresh_breaker no_faults))
  /\ (let '(r, tr, w') := completeTodo "req-1" "missing" (world [row1] fresh_breaker no_faults) in
      match r with
      | Ok res => res = TodoNotFoundError "missing"
      | Err g => exists e, g = internal_error "Failed to complete todo" e
      end
      /\ (forall q, In (EvFire q) tr \/ In (EvDb q) tr -> q = QSelectById "missing")
      /\ publications tr = [] /\ w_table w' = w_table (world [row1] fresh_breaker no_faults)).
Proof.
  split; [reflexivity|].
  apply (missing_id_mutations_not_found "req-1" "missing" (world [row1] fresh_breaker no_faults)).
  reflexivity.
Defined.

(** The [addTag] mutation on a todo id with no row returns
    [TodoNotFoundError] without running the tag statement (its outcome does
    not depend on what [INSERT INTO todoTags] would do), publishes nothing
    and leaves the table alone; a failure of the lookup reaches the caller as
    the database error itself, not wrapped in a [GraphQLError]. *)
Theorem addTagResolver_missing_todo (insert_tag insert_tag' : TagRow -> Svc (list TagRow))
    (cid todoId tagName tagColor : string) (w : World) :
  filter (has_id todoId) (w_table w) = [] ->
  addTagResolver insert_tag cid todoId tagName tagColor w
    = addTagResolver insert_tag' cid todoId tagName tagColor w
  /\ let '(r, tr, w') := addTagResolver insert_tag cid todoId tagName tagColor w in
     match r with
     | Ok res => res = AddTagNotFound todoId
     | Err e => fst (fst (findById todoId w)) = Err e
     end
     /\ w_table w' = w_table w /\ publications tr = [].
Proof.
  intros Hnone. unfold addTagResolver, bind, tell. cbn [app].
  pose proof (findById_spec todoId w) as Hf.
  destruct (findById todoId w) as [[[o|e] tr] w1];
    destruct Hf as [Htr [Htbl Ho]]; apply query_trace_no_publication in Htr.
  - rewrite Hnone in Ho. cbn in Ho. subst o. cbn. rewrite app_nil_r.
    split; [reflexivity|]. repeat split; assumption.
  - cbn. split; [reflexivity|]. repeat split; assumption.
Qed.

Lemma addTagResolver_missing_todo_witness :
  filter (has_id "missing") (w_table (world [row1] fresh_breaker no_faults)) = []
  /\ addTagResolver (fun _ => throw row0_error) "req-1" "missing" "urgent" "#ff0000"
       (world [row1] fresh_breaker no_faults)
     = addTagResolver (fun _ => ret []) "req-1" "missing" "urgent" "#ff0000"
       (world [row1] fresh_breaker no_faults)
  /\ let '(r, tr, w') := addTagResolver (fun _ => throw row0_error) "req-1" "missing"
                           "urgent" "#ff0000" (world [row1] fresh_breaker no_faults) in
     match r with
     | Ok res => res = AddTagNotFound "missing"
     | Err e => fst (fst (findById "missing" (world [row1] fresh_breaker no_faults))) = Err e
     end
     /\ w_table w' = w_table (world [row1] fresh_breaker no_faults) /\ publications tr = [].
Proof.
  split; [reflexivity|].
  apply (addTagResolver_missing_todo (fun _ => throw row0_error) (fun _ => ret [])
           "req-1" "missing" "urgent" "#ff0000" (world [row1] fresh_breaker no_faults)).
  reflexivity.
Defined.

(** ** [validateInput] on the two schemas *)








